(** * xpysis: Poisson-likelihood fitting of a power law (notebook
      [Example1_fit_HETG_powerlaw], class [PowerlawPoissonFit])

    The notebook code works on numpy [float64] arrays.  The embedding below is
    written once, over an interface of the arithmetic the code uses, and is
    read at two instances:

    - [B64]: IEEE 754 binary64, the primitive floats of the kernel.  [+], [-],
      [*], [/], [sqrt], the comparisons and [isfinite] are bit-exact; [np.log]
      and [np.power] are libm routines, given by their IEEE special-case table
      and, for ordinary arguments, by a function that is left open.
    - [Exact]: the same special values (NaN, +inf, -inf) around exact real
      numbers: no rounding, no overflow, no underflow, [np.log] is [ln] and
      [np.power(10.0, x)] is [10^x].

    What the IEEE operations return (special values, overflow, rounding) is
    stated at [B64], for every choice of the libm functions.  What rests on the
    values of the logarithm and of the power at ordinary arguments is stated at
    [Exact].

    Arrays are lists; a Python exception is [None].  [np.sum] adds in the
    order of numpy's pairwise summation, and a boolean mask indexes as numpy
    has it (an empty mask is not checked against the array).  The spectrum
    object and the power-law model come from pyxsis and clarsach, outside the
    notebook: [self.counts], [self.bin_counts], [self.model.calculate] and
    [self.apply_resp] are variables of the development. *)

From Stdlib Require Import List Bool Arith ZArith Lia Floats Reals Lra.
Import ListNotations.

#[local] Set Warnings "-inexact-float".

(* ================================================================== *)
(** ** The arithmetic of numpy's float64, as an interface *)

(** The IEEE operations the notebook uses on scalars and elementwise. *)
Class Arith (F : Type) : Type := {
  f_zero : F;                    (* 0.0 *)
  f_half : F;                    (* 0.5 *)
  f_two : F;                     (* 2.0 *)
  f_neg_inf : F;                 (* -np.inf *)
  f_add : F -> F -> F;
  f_sub : F -> F -> F;
  f_mul : F -> F -> F;
  f_div : F -> F -> F;
  f_opp : F -> F;                (* unary minus *)
  f_sqrt : F -> F;               (* np.sqrt *)
  f_neq : F -> F -> bool;        (* != *)
  f_isfinite : F -> bool         (* np.isfinite *)
}.

(** The libm routines the notebook calls through numpy. *)
Class Libm (F : Type) : Type := {
  f_log : F -> F;                (* np.log *)
  f_pow10 : F -> F               (* np.power(10.0, .) *)
}.

(* ================================================================== *)
(** ** One-dimensional numpy arrays *)

Section Numpy.
Context {F : Type} {A : Arith F}.

(** [np.zeros(n)] *)
Definition np_zeros (n : nat) : list F := repeat f_zero n.

(** [np.sum(a)] on a contiguous [float64] array is numpy's pairwise summation
    ([DOUBLE_pairwise_sum]):

    - fewer than 8 elements are added from the left, [res = -0.0;
      for (i = 0; i < n; i++) res += a[i]];
    - from 8 to 128 ([PW_BLOCKSIZE]) elements go to eight accumulators,
      [r[j] = a[j]], then [r[j] += a[i + j]] for every further full group of
      eight, [res = ((r0 + r1) + (r2 + r3)) + ((r4 + r5) + (r6 + r7))], and the
      elements left over are added to [res] one by one;
    - a longer array is split at [n2 = n/2 - (n/2) % 8] and the sums of the two
      parts are added.

    The reduction adds this to its initial value: [-0.0] for an array that is
    not empty, and [0.0] is the sum of the empty array.  (Releases before the
    sign of zero was preserved start both from [0.0]; this changes the result
    only when it is a zero.) *)
Definition f_neg_zero : F := f_opp f_zero.

Fixpoint unrolled_sum (r0 r1 r2 r3 r4 r5 r6 r7 : F) (a : list F) : F :=
  match a with
  | b0 :: b1 :: b2 :: b3 :: b4 :: b5 :: b6 :: b7 :: a' =>
      unrolled_sum (f_add r0 b0) (f_add r1 b1) (f_add r2 b2) (f_add r3 b3)
                   (f_add r4 b4) (f_add r5 b5) (f_add r6 b6) (f_add r7 b7) a'
  | _ =>
      fold_left f_add a
        (f_add (f_add (f_add r0 r1) (f_add r2 r3))
               (f_add (f_add r4 r5) (f_add r6 r7)))
  end.

(** The first two cases: at most [PW_BLOCKSIZE] elements. *)
Definition block_sum (a : list F) : F :=
  match a with
  | a0 :: a1 :: a2 :: a3 :: a4 :: a5 :: a6 :: a7 :: a' =>
      unrolled_sum a0 a1 a2 a3 a4 a5 a6 a7 a'
  | _ => fold_left f_add a f_neg_zero
  end.

(** The split point of a long array. *)
Definition split_point (n : nat) : nat := n / 2 - (n / 2) mod 8.

(** The recursion, on a bound [depth] for the number of nested splits; a part
    is shorter than the array it comes from, so [length a] splits are never
    used up ([pairwise_sum_depth] below). *)
Fixpoint pairwise_sum_upto (depth : nat) (a : list F) : F :=
  match depth with
  | S d =>
      if length a <=? 128 then block_sum a
      else let n2 := split_point (length a) in
           f_add (pairwise_sum_upto d (firstn n2 a)) (pairwise_sum_upto d (skipn n2 a))
  | O => block_sum a
  end.

Definition pairwise_sum (a : list F) : F := pairwise_sum_upto (length a) a.

Definition np_sum (a : list F) : F :=
  match a with
  | [] => f_zero
  | _ => f_add f_neg_zero (pairwise_sum a)
  end.

(** Elementwise binary operation [a op b] with numpy's broadcasting rule for
    one dimension: equal lengths, or one operand of length one. *)
Fixpoint zip_with (op : F -> F -> F) (a b : list F) : list F :=
  match a, b with
  | x :: a', y :: b' => op x y :: zip_with op a' b'
  | _, _ => []
  end.

Definition elementwise (op : F -> F -> F) (a b : list F) : option (list F) :=
  if length a =? length b then Some (zip_with op a b)
  else match a, b with
       | [x], _ => Some (map (op x) b)
       | _, [y] => Some (map (fun x => op x y) a)
       | _, _ => None
       end.

(** Number of [True] entries of a boolean mask. *)
Definition count_true (ii : list bool) : nat := length (filter (fun b => b) ii).

(** [a[ii]] for a boolean mask [ii]: the selected elements, in order.
    numpy raises IndexError when a mask that is not empty has not the length
    of the array; an empty mask is not checked and selects nothing, whatever
    the array. *)
Fixpoint take_mask (a : list F) (ii : list bool) : list F :=
  match a, ii with
  | x :: a', b :: ii' => if b then x :: take_mask a' ii' else take_mask a' ii'
  | _, _ => []
  end.

Definition mask_get (a : list F) (ii : list bool) : option (list F) :=
  match ii with
  | [] => Some []
  | _ => if length a =? length ii then Some (take_mask a ii) else None
  end.

(** [a[ii] = v] for a boolean mask [ii]: the values of [v] go, in order, to
    the positions where the mask is true.  The notebook only assigns to an
    array made with the mask's length, and then numpy raises unless [v] has
    one value per selected position or is a single value; [v] is always built
    from arrays selected with the same mask and has one value per position, so
    the broadcast of a single value is not modelled. *)
Fixpoint put_mask (a : list F) (ii : list bool) (v : list F) : list F :=
  match a, ii with
  | x :: a', true :: ii' =>
      match v with
      | y :: v' => y :: put_mask a' ii' v'
      | [] => x :: put_mask a' ii' []
      end
  | x :: a', false :: ii' => x :: put_mask a' ii' v
  | _, _ => a
  end.

Definition mask_set (a : list F) (ii : list bool) (v : list F) : option (list F) :=
  if (length a =? length ii) && (length v =? count_true ii)
  then Some (put_mask a ii v) else None.

End Numpy.

(* ================================================================== *)
(** ** A state-and-exception monad for the methods of the fit object *)

Definition M (S A : Type) : Type := S -> option (A * S).

Definition ret {S A} (a : A) : M S A := fun s => Some (a, s).

Definition bind {S A B} (c : M S A) (k : A -> M S B) : M S B :=
  fun s => match c s with
           | Some (a, s') => k a s'
           | None => None
           end.

(** Run a computation that may raise but leaves the object alone. *)
Definition lift {S A} (o : option A) : M S A :=
  fun s => match o with Some a => Some (a, s) | None => None end.

Definition gets {S A} (f : S -> A) : M S A := fun s => Some (f s, s).

Declare Scope monad_scope.
Delimit Scope monad_scope with monad.
Notation "x <- c ;; k" := (bind c (fun x => k))
  (at level 61, c at next level, right associativity) : monad_scope.
Notation "' pat <- c ;; k" := (bind c (fun x => match x with pat => k end))
  (at level 61, pat pattern, c at next level, right associativity) : monad_scope.

(** The same for plain [option], used by the array-level functions. *)
Definition obind {A B} (o : option A) (k : A -> option B) : option B :=
  match o with Some a => k a | None => None end.

Declare Scope opt_scope.
Delimit Scope opt_scope with opt.
Notation "x <-- o ;; k" := (obind o (fun x => k))
  (at level 61, o at next level, right associativity) : opt_scope.

(* ================================================================== *)
(** ** The class [PowerlawPoissonFit] *)

Section Fit.
Context {F : Type} {A : Arith F} {L : Libm F}.

(** [clarsach.Powerlaw]: the two parameters the notebook sets. *)
Record Powerlaw : Type := { norm : F; phoindex : F }.

(** The loaded spectrum (pyxsis, not part of the notebook): its data, read
    only, and the three things the notebook asks of it. *)
Context {Spectrum : Type}.
Variable counts : Spectrum -> list F.                              (* self.counts *)
Variable bin_counts : Spectrum -> option (list F * list F * list F * list F).
                                                                   (* self.bin_counts(unit='keV') *)
Variable calculate : Powerlaw -> list F -> list F -> option (list F).
                                                                   (* self.model.calculate(elo, ehi) *)
Variable apply_resp : Spectrum -> list F -> option (list F).       (* self.apply_resp(mflux) *)

(** The object: the spectrum and the model whose parameters are mutated. *)
Record PowerlawPoissonFit : Type := { xspec : Spectrum; model : Powerlaw }.

Local Open Scope monad_scope.

(** [set_model_pars(self, pars)]: [lognorm, pi = pars] raises ValueError
    unless [pars] has exactly two entries. *)
Definition set_model_pars (pars : list F) : M PowerlawPoissonFit unit :=
  fun self =>
    match pars with
    | [lognorm; pi] =>
        Some (tt, {| xspec := xspec self;
                     model := {| norm := f_pow10 lognorm; phoindex := pi |} |})
    | _ => None
    end.

(** [emid = 0.5 * (elo + ehi)] *)
Definition bin_mid (elo ehi : list F) : option (list F) :=
  option_map (map (f_mul f_half)) (elementwise f_add elo ehi).

(** [model_chist(self, pars)] *)
Definition model_chist (pars : list F) : M PowerlawPoissonFit (list F) :=
  '(elo, ehi, cts, cts_err) <- (fun self => lift (bin_counts (xspec self)) self) ;;
  emid <- lift (bin_mid elo ehi) ;;
  _ <- set_model_pars pars ;;
  mflux <- (fun self => lift (calculate (model self) elo ehi) self) ;;
  result <- (fun self => lift (apply_resp (xspec self) mflux) self) ;;
  ret result.

(** The body of [loglikelihood] after [ymodel] and [ydata] are bound:
    [cvals = np.zeros(len(ymodel)); ii = (ymodel != 0.0);
     cvals[ii] = ydata[ii] * np.log(ymodel[ii]) - ymodel[ii];
     loglike = np.sum(cvals)], then the [np.isfinite] test. *)
Definition poisson_loglike (ymodel ydata : list F) : option F :=
  (let cvals := np_zeros (length ymodel) in
   let ii := map (fun m => f_neq m f_zero) ymodel in
   yd <-- mask_get ydata ii ;;
   ym <-- mask_get ymodel ii ;;
   prod <-- elementwise f_mul yd (map f_log ym) ;;
   ym' <-- mask_get ymodel ii ;;
   rhs <-- elementwise f_sub prod ym' ;;
   cvals' <-- mask_set cvals ii rhs ;;
   let loglike := np_sum cvals' in
   Some (if f_isfinite loglike then loglike else f_neg_inf))%opt.

(** [loglikelihood(self, pars)] *)
Definition loglikelihood (pars : list F) : M PowerlawPoissonFit F :=
  ymodel <- model_chist pars ;;
  ydata <- gets (fun self => counts (xspec self)) ;;
  lift (poisson_loglike ymodel ydata).

(** [cash(self, pars)]: [return -result/2.0] *)
Definition cash_value (result : F) : F := f_div (f_opp result) f_two.

Definition cash (pars : list F) : M PowerlawPoissonFit F :=
  result <- loglikelihood pars ;;
  ret (cash_value result).

(** The body of [mod_residuals] after [mcounts] is bound. *)
Definition residuals (mcounts cts : list F) : option (list F) :=
  (let cts_err := map f_sqrt cts in
   let result := np_zeros (length cts) in
   let ii := map (fun e => f_neq e f_zero) cts_err in
   mc <-- mask_get mcounts ii ;;
   c <-- mask_get cts ii ;;
   diff <-- elementwise f_sub mc c ;;
   e <-- mask_get cts_err ii ;;
   rhs <-- elementwise f_div diff e ;;
   mask_set result ii rhs)%opt.

(** [mod_residuals(self, pars)] *)
Definition mod_residuals (pars : list F) : M PowerlawPoissonFit (list F) :=
  mcounts <- model_chist pars ;;
  cts <- gets (fun self => counts (xspec self)) ;;
  lift (residuals mcounts cts).

(** The Cash statistic of a predicted and an observed histogram: what [cash]
    returns once [model_chist] has produced [predicted]. *)
Definition cash_of (predicted observed : list F) : option F :=
  option_map cash_value (poisson_loglike predicted observed).

End Fit.

Arguments Powerlaw F : clear implicits.
Arguments PowerlawPoissonFit F Spectrum : clear implicits.

(* ================================================================== *)
(** ** Instance 1: IEEE 754 binary64 *)

Module B64.

Local Open Scope float_scope.

#[global] Instance arith : Arith float := {
  f_zero := 0;
  f_half := 0.5;
  f_two := 2;
  f_neg_inf := neg_infinity;
  f_add := PrimFloat.add;
  f_sub := PrimFloat.sub;
  f_mul := PrimFloat.mul;
  f_div := PrimFloat.div;
  f_opp := PrimFloat.opp;
  f_sqrt := PrimFloat.sqrt;
  f_neq := fun x y => negb (x =? y);
  f_isfinite := is_finite
}.

(** [np.log]: the results IEEE 754 and C Annex F fix (NaN for NaN and for
    negative arguments, [-inf] at [+0] and [-0], [+inf] at [+inf], [+0] at [1]);
    elsewhere libm's value, [libm_log]. *)
Definition np_log (libm_log : float -> float) (x : float) : float :=
  if is_nan x then nan
  else if x <? 0 then nan
  else if x =? 0 then neg_infinity
  else if x =? infinity then infinity
  else if x =? 1 then 0
  else libm_log x.

(** [np.power(10.0, x)]: NaN for NaN, [+inf] at [+inf], [+0] at [-inf], [1] at
    [+0] and [-0]; elsewhere libm's value, [libm_pow10]. *)
Definition np_pow10 (libm_pow10 : float -> float) (x : float) : float :=
  if is_nan x then nan
  else if x =? infinity then infinity
  else if x =? neg_infinity then 0
  else if x =? 0 then 1
  else libm_pow10 x.

Definition libm (libm_log libm_pow10 : float -> float) : Libm float :=
  {| f_log := np_log libm_log; f_pow10 := np_pow10 libm_pow10 |}.

End B64.

(* ================================================================== *)
(** ** Instance 2: exact real arithmetic with the IEEE special values *)

Module Exact.

Local Open Scope R_scope.

Inductive ereal : Type :=
| NaN : ereal
| PInf : ereal
| NInf : ereal
| Fin : R -> ereal.

Definition eopp (x : ereal) : ereal :=
  match x with
  | NaN => NaN
  | PInf => NInf
  | NInf => PInf
  | Fin a => Fin (- a)
  end.

Definition eadd (x y : ereal) : ereal :=
  match x, y with
  | NaN, _ | _, NaN => NaN
  | PInf, NInf | NInf, PInf => NaN
  | PInf, _ | _, PInf => PInf
  | NInf, _ | _, NInf => NInf
  | Fin a, Fin b => Fin (a + b)
  end.

Definition esub (x y : ereal) : ereal := eadd x (eopp y).

(** An infinity of sign [pos] scaled by the real [a]. *)
Definition inf_times (pos : bool) (a : R) : ereal :=
  if Req_dec_T a 0 then NaN
  else if Rlt_dec 0 a then (if pos then PInf else NInf)
  else (if pos then NInf else PInf).

Definition emul (x y : ereal) : ereal :=
  match x, y with
  | NaN, _ | _, NaN => NaN
  | PInf, PInf | NInf, NInf => PInf
  | PInf, NInf | NInf, PInf => NInf
  | PInf, Fin a | Fin a, PInf => inf_times true a
  | NInf, Fin a | Fin a, NInf => inf_times false a
  | Fin a, Fin b => Fin (a * b)
  end.

(** Division; a real zero divisor is read as [+0]. *)
Definition ediv (x y : ereal) : ereal :=
  match x, y with
  | NaN, _ | _, NaN => NaN
  | (PInf | NInf), (PInf | NInf) => NaN
  | Fin _, (PInf | NInf) => Fin 0
  | PInf, Fin b => if Rlt_dec b 0 then NInf else PInf
  | NInf, Fin b => if Rlt_dec b 0 then PInf else NInf
  | Fin a, Fin b =>
      if Req_dec_T b 0
      then (if Req_dec_T a 0 then NaN else if Rlt_dec 0 a then PInf else NInf)
      else Fin (a / b)
  end.

Definition esqrt (x : ereal) : ereal :=
  match x with
  | NaN | NInf => NaN
  | PInf => PInf
  | Fin a => if Rlt_dec a 0 then NaN else Fin (sqrt a)
  end.

Definition eneq (x y : ereal) : bool :=
  match x, y with
  | NaN, _ | _, NaN => true
  | PInf, PInf | NInf, NInf => false
  | Fin a, Fin b => if Req_dec_T a b then false else true
  | _, _ => true
  end.

Definition eisfinite (x : ereal) : bool :=
  match x with Fin _ => true | _ => false end.

Definition elog (x : ereal) : ereal :=
  match x with
  | NaN | NInf => NaN
  | PInf => PInf
  | Fin a => if Rlt_dec a 0 then NaN
             else if Req_dec_T a 0 then NInf
             else Fin (ln a)
  end.

Definition epow10 (x : ereal) : ereal :=
  match x with
  | NaN => NaN
  | PInf => PInf
  | NInf => Fin 0
  | Fin a => Fin (Rpower 10 a)
  end.

#[global] Instance arith : Arith ereal := {
  f_zero := Fin 0;
  f_half := Fin (1 / 2);
  f_two := Fin 2;
  f_neg_inf := NInf;
  f_add := eadd;
  f_sub := esub;
  f_mul := emul;
  f_div := ediv;
  f_opp := eopp;
  f_sqrt := esqrt;
  f_neq := eneq;
  f_isfinite := eisfinite
}.

#[global] Instance libm : Libm ereal := {
  f_log := elog;
  f_pow10 := epow10
}.

End Exact.

(* ================================================================== *)
(** ** Definitions used to state the properties *)

Section Readings.
Context {F : Type} {A : Arith F} {L : Libm F}.

(** The contribution of one bin to [np.sum(cvals)]: the bins selected by
    [ymodel != 0.0] carry [x * log m - m], the others the [0.0] of [np.zeros]. *)
Definition bin_term (m x : F) : F :=
  if f_neq m f_zero then f_sub (f_mul x (f_log m)) m else f_zero.

(** The accumulated total [np.sum(cvals)]. *)
Definition nonzero_bins_sum (ymodel ydata : list F) : F :=
  np_sum (zip_with bin_term ymodel ydata).

(** The final test of [loglikelihood]. *)
Definition finite_or_neg_inf (s : F) : F :=
  if f_isfinite s then s else f_neg_inf.

(** One entry of the array [mod_residuals] returns. *)
Definition residual_term (m c : F) : F :=
  if f_neq (f_sqrt c) f_zero then f_div (f_sub m c) (f_sqrt c) else f_zero.

Context {Spectrum : Type}.
Variable counts : Spectrum -> list F.
Variable bin_counts : Spectrum -> option (list F * list F * list F * list F).
Variable calculate : Powerlaw F -> list F -> list F -> option (list F).
Variable apply_resp : Spectrum -> list F -> option (list F).

(** The object [set_model_pars] leaves behind: the same spectrum, the model
    parameters taken from the vector. *)
Definition tuned (self : PowerlawPoissonFit F Spectrum) (lognorm pi : F)
  : PowerlawPoissonFit F Spectrum :=
  {| xspec := xspec self;
     model := {| norm := f_pow10 lognorm; phoindex := pi |} |}.

(** The minimizer's loop, as far as the object sees it: [cash] called on one
    parameter vector after the other; the values it returned, in order. *)
Fixpoint cash_each (history : list (list F)) : M (PowerlawPoissonFit F Spectrum) (list F) :=
  match history with
  | [] => ret []
  | pars :: rest =>
      (v <- cash counts bin_counts calculate apply_resp pars ;;
       vs <- cash_each rest ;;
       ret (v :: vs))%monad
  end.

End Readings.

Module Claimed.

Local Open Scope float_scope.

(** The log-likelihood in the spec's words: the sum of [x * ln m - m] over
    the bins with [m > 0], every other bin contributing [0]. *)
Definition positive_bins_sum (libm_log : float -> float) (predicted observed : list float)
  : float :=
  np_sum (zip_with (fun m x => if 0 <? m then x * B64.np_log libm_log m - m else 0)
                   predicted observed).

(** The Poisson errors in the spec's words: [sqrt(max(counts, 1))]. *)
Definition floored_errors (cts : list float) : list float :=
  map (fun c => PrimFloat.sqrt (if c <? 1 then 1 else c)) cts.

(** The residuals in the spec's words: [(predicted - observed) / errors]
    with the floored errors. *)
Definition floored_residuals (predicted observed : list float) : list float :=
  zip_with PrimFloat.div (zip_with PrimFloat.sub predicted observed)
           (floored_errors observed).

End Claimed.


(** binary64's exponent function, and the shape of a finite number. *)
Definition fexp64 (k : Z) : Z := (Z.max (k - 53) (-1074))%Z.

Definition finite_or_zero (f : spec_float) : Prop :=
  match f with
  | S754_zero _ | S754_finite _ _ _ => True
  | _ => False
  end.

(** The magnitude of a finite binary64 number as an integer, scaled by
    [2^1200] ([0] for a zero), its sign, and its signed value. *)
Definition magnitude (x : spec_float) : Z :=
  match x with
  | S754_finite _ m e => (Zpos m * 2 ^ (e + 1200))%Z
  | _ => 0%Z
  end.

Definition sign_of (x : spec_float) : bool :=
  match x with
  | S754_zero s | S754_infinity s | S754_finite s _ _ => s
  | S754_nan => false
  end.

Definition signed_value (x : spec_float) : Z :=
  if sign_of x then (- magnitude x)%Z else magnitude x.

(** [r] is on the same side as [V] of zero and of every bound [+-mg * 2^eg]
    with a mantissa below [2^53] and an exponent from [-1074] on: what rounding
    the value [V] (scaled by [2^1200]) to binary64 guarantees of its result. *)
Definition same_side (V : Z) (r : spec_float) : Prop :=
  ((0 <= V -> 0 <= signed_value r) /\ (V <= 0 -> signed_value r <= 0)
   /\ forall mg eg : Z,
       0 < mg < 2 ^ 53 -> -1074 <= eg ->
       (mg * 2 ^ (eg + 1200) <= V -> mg * 2 ^ (eg + 1200) <= signed_value r)
       /\ (V <= mg * 2 ^ (eg + 1200) -> signed_value r <= mg * 2 ^ (eg + 1200))
       /\ (- (mg * 2 ^ (eg + 1200)) <= V -> - (mg * 2 ^ (eg + 1200)) <= signed_value r)
       /\ (V <= - (mg * 2 ^ (eg + 1200)) -> signed_value r <= - (mg * 2 ^ (eg + 1200))))%Z.

(** The real numbers behind the exact instance. *)

(** One bin's contribution when the predicted and observed counts are the
    reals [m >= 0] and [x]. *)
Definition bin_real (m x : R) : R :=
  if Req_dec_T m 0 then 0%R else (x * ln m - m)%R.

(** The sum of a list of reals. *)
Definition real_sum (l : list R) : R := fold_left Rplus l 0%R.

(* ================================================================== *)
(** ** The energy grid of [test_create_from_arrays] *)

Section Grid.
Context {F : Type} {A : Arith F}.

(** [elo = energy[:-1]; ehi = energy[1:]; emid = 0.5 * (elo + ehi)], with the
    array [np.linspace] returned as argument: the low edges, the high edges and
    the midpoints of the bins the test spectrum is built on. *)
Definition grid_of (energy : list F) : option (list F * list F * list F) :=
  (let elo := removelast energy in
   let ehi := tl energy in
   emid <-- bin_mid elo ehi ;;
   Some (elo, ehi, emid))%opt.

End Grid.

(** An array of doubles in which every element stands in the relation [rel]
    to the next one. *)
Definition ascending (rel : float -> float -> bool) (l : list float) : Prop :=
  forall i a b, nth_error l i = Some a -> nth_error l (S i) = Some b -> rel a b = true.
(* ================================================================== *)
(** * Properties *)

(** ** The array helpers *)

Section NumpyFacts.
Context {F : Type} {A : Arith F}.

Lemma elementwise_same_length (op : F -> F -> F) (a b : list F) :
  length a = length b -> elementwise op a b = Some (zip_with op a b).
Proof.
  intros E. unfold elementwise. rewrite E, Nat.eqb_refl. reflexivity.
Qed.

Lemma mask_get_same_length (a : list F) (ii : list bool) :
  length a = length ii -> mask_get a ii = Some (take_mask a ii).
Proof.
  intros E. unfold mask_get. destruct ii as [|b ii].
  - destruct a; reflexivity.
  - rewrite E, Nat.eqb_refl. reflexivity.
Qed.

Lemma mask_get_other_length (a : list F) (ii : list bool) :
  ii <> [] -> length a <> length ii -> mask_get a ii = None.
Proof.
  intros N E. unfold mask_get. destruct ii as [|b ii]; [contradiction|].
  apply Nat.eqb_neq in E. rewrite E. reflexivity.
Qed.

(** An empty mask selects nothing from any array. *)
Lemma mask_get_empty_mask (a : list F) : mask_get a [] = Some [].
Proof. reflexivity. Qed.

Lemma take_mask_length (a : list F) (ii : list bool) :
  length a = length ii -> length (take_mask a ii) = count_true ii.
Proof.
  revert ii. induction a as [|x a IH]; intros [|b ii] E; simpl in *; try discriminate.
  - reflexivity.
  - injection E as E. unfold count_true in *. destruct b; simpl; rewrite IH; auto.
Qed.

Lemma take_mask_map (f : F -> F) (a : list F) (ii : list bool) :
  take_mask (map f a) ii = map f (take_mask a ii).
Proof.
  revert ii. induction a as [|x a IH]; intros [|b ii]; simpl; try reflexivity.
  destruct b; simpl; rewrite IH; reflexivity.
Qed.

Lemma zip_with_length (op : F -> F -> F) (a b : list F) :
  length a = length b -> length (zip_with op a b) = length a.
Proof.
  revert b. induction a as [|x a IH]; intros [|y b] E; simpl in *; try discriminate.
  - reflexivity.
  - injection E as E. rewrite IH; auto.
Qed.

(** Writing [g] of the selected elements of [a] and [b] into a zero array is
    the elementwise choice between [g] and [0.0]. *)
Lemma put_take_zip (g : F -> F -> F) (p : F -> bool) (a b : list F) :
  length a = length b ->
  put_mask (np_zeros (length (map p b))) (map p b)
           (zip_with g (take_mask a (map p b)) (take_mask b (map p b)))
  = zip_with (fun x y => if p y then g x y else f_zero) a b.
Proof.
  revert a. induction b as [|y b IH]; intros [|x a] E; simpl in *; try discriminate.
  - reflexivity.
  - injection E as E. destruct (p y); simpl; rewrite <- IH by assumption;
      rewrite ?length_map; reflexivity.
Qed.

Lemma zip_with_flip (g : F -> F -> F) (a b : list F) :
  zip_with g a b = zip_with (fun y x => g x y) b a.
Proof.
  revert b. induction a as [|x a IH]; intros [|y b]; simpl; try reflexivity.
  rewrite IH. reflexivity.
Qed.

Lemma list_eq_dec_nil (T : Type) (l : list T) : {l = []} + {l <> []}.
Proof. destruct l; [left; reflexivity|right; discriminate]. Qed.

(** *** [np.sum] *)

(** Lists are taken eight elements at a time. *)
Lemma list_ind8 (T : Type) (P : list T -> Prop) :
  (forall a, length a < 8 -> P a) ->
  (forall b0 b1 b2 b3 b4 b5 b6 b7 a,
      P a -> P (b0 :: b1 :: b2 :: b3 :: b4 :: b5 :: b6 :: b7 :: a)) ->
  forall a, P a.
Proof.
  intros Hshort Hstep.
  assert (H : forall n a, length a <= n -> P a).
  { induction n as [|n IH]; intros a Hn.
    - apply Hshort. lia.
    - destruct a as [|b0 [|b1 [|b2 [|b3 [|b4 [|b5 [|b6 [|b7 a]]]]]]]];
        try (apply Hshort; simpl; lia).
      apply Hstep. apply IH. simpl in Hn. lia. }
  intros a. apply (H (length a)). lia.
Qed.

Lemma unrolled_sum_short (r0 r1 r2 r3 r4 r5 r6 r7 : F) (a : list F) :
  length a < 8 ->
  unrolled_sum r0 r1 r2 r3 r4 r5 r6 r7 a
  = fold_left f_add a
      (f_add (f_add (f_add r0 r1) (f_add r2 r3)) (f_add (f_add r4 r5) (f_add r6 r7))).
Proof.
  intros H.
  destruct a as [|b0 [|b1 [|b2 [|b3 [|b4 [|b5 [|b6 [|b7 a]]]]]]]]; try reflexivity.
  simpl in H. lia.
Qed.

Lemma block_sum_short (a : list F) :
  length a < 8 -> block_sum a = fold_left f_add a f_neg_zero.
Proof.
  intros H.
  destruct a as [|b0 [|b1 [|b2 [|b3 [|b4 [|b5 [|b6 [|b7 a]]]]]]]]; try reflexivity.
  simpl in H. lia.
Qed.

Lemma split_point_bounds (n : nat) :
  128 < n -> 0 < split_point n < n.
Proof.
  intros H. unfold split_point.
  pose proof (Nat.mod_upper_bound (n / 2) 8 ltac:(lia)) as U.
  pose proof (Nat.div_mod_eq n 2) as D.
  pose proof (Nat.mod_upper_bound n 2 ltac:(lia)) as U2.
  lia.
Qed.

(** The bound on the number of splits does not matter once it is the length
    of the array or more. *)
Lemma pairwise_sum_depth (d : nat) (a : list F) :
  length a <= d -> pairwise_sum_upto d a = pairwise_sum a.
Proof.
  unfold pairwise_sum.
  assert (H : forall d1 d2 a, length a <= d1 -> length a <= d2 ->
                              pairwise_sum_upto d1 a = pairwise_sum_upto d2 a).
  { clear d a. induction d1 as [|d1 IH]; intros d2 a H1 H2.
    - destruct a; [|simpl in H1; lia]. destruct d2; reflexivity.
    - destruct d2 as [|d2].
      + destruct a; [reflexivity|simpl in H2; lia].
      + simpl. destruct (Nat.leb_spec (length a) 128) as [_|L]; [reflexivity|].
        pose proof (split_point_bounds _ L) as B.
        f_equal; apply IH;
          rewrite ?length_firstn, ?length_skipn; lia. }
  intros Hd. apply H; [exact Hd|lia].
Qed.

Lemma pairwise_sum_short (a : list F) :
  length a <= 128 -> pairwise_sum a = block_sum a.
Proof.
  intros H. unfold pairwise_sum. destruct (length a) eqn:E; [reflexivity|].
  simpl. rewrite E. apply Nat.leb_le in H. rewrite H. reflexivity.
Qed.

Lemma pairwise_sum_long (a : list F) :
  128 < length a ->
  pairwise_sum a
  = f_add (pairwise_sum (firstn (split_point (length a)) a))
          (pairwise_sum (skipn (split_point (length a)) a)).
Proof.
  intros H. pose proof (split_point_bounds _ H) as B.
  unfold pairwise_sum at 1. destruct (length a) as [|n] eqn:E; [lia|].
  simpl. rewrite E.
  destruct (Nat.leb_spec (S n) 128) as [L|_]; [lia|].
  f_equal; apply pairwise_sum_depth; rewrite ?length_firstn, ?length_skipn; lia.
Qed.

(** Induction along the splits. *)
Lemma pairwise_sum_splits (P : list F -> Prop) :
  (forall a, length a <= 128 -> P a) ->
  (forall a, 128 < length a ->
             P (firstn (split_point (length a)) a) ->
             P (skipn (split_point (length a)) a) -> P a) ->
  forall a, P a.
Proof.
  intros Hshort Hlong.
  assert (H : forall n a, length a <= n -> P a).
  { induction n as [|n IH]; intros a Hn.
    - apply Hshort. lia.
    - destruct (Nat.leb_spec (length a) 128) as [L|L]; [apply Hshort; exact L|].
      pose proof (split_point_bounds _ L) as B.
      apply Hlong; [exact L| |]; apply IH;
        rewrite ?length_firstn, ?length_skipn; lia. }
  intros a. apply (H (length a)). lia.
Qed.

(** A property that one operand passes on to a sum passes from one element
    to [np.sum]: a NaN, or a value that is not finite. *)
Section Absorbing.
Variable P : F -> Prop.
Hypothesis P_add_l : forall x y, P x -> P (f_add x y).
Hypothesis P_add_r : forall x y, P y -> P (f_add x y).

Lemma fold_absorbs (a : list F) (acc : F) :
  P acc \/ Exists P a -> P (fold_left f_add a acc).
Proof.
  revert acc. induction a as [|x a IH]; intros acc H; simpl.
  - destruct H as [H|H]; [exact H|inversion H].
  - apply IH. destruct H as [H|H].
    + left. apply P_add_l. exact H.
    + inversion H; subst; [left; apply P_add_r; assumption|right; assumption].
Qed.

Lemma unrolled_sum_absorbs (a : list F) :
  forall r0 r1 r2 r3 r4 r5 r6 r7 : F,
    Exists P [r0; r1; r2; r3; r4; r5; r6; r7] \/ Exists P a ->
    P (unrolled_sum r0 r1 r2 r3 r4 r5 r6 r7 a).
Proof.
  induction a as [a Hshort|b0 b1 b2 b3 b4 b5 b6 b7 a IH] using list_ind8;
    intros r0 r1 r2 r3 r4 r5 r6 r7 H.
  - rewrite unrolled_sum_short by exact Hshort. apply fold_absorbs.
    destruct H as [H|H]; [left|right; exact H].
    repeat (apply Exists_cons in H; destruct H as [H|H]);
      [..|inversion H]; auto 8.
  - cbn [unrolled_sum]. apply IH.
    destruct H as [H|H].
    + left. repeat (apply Exists_cons in H; destruct H as [H|H]); [..|inversion H].
      all: repeat (first [apply Exists_cons_hd; apply P_add_l; exact H
                         |apply Exists_cons_tl]).
    + repeat (apply Exists_cons in H; destruct H as [H|H]); [..|right; exact H].
      all: left; repeat (first [apply Exists_cons_hd; apply P_add_r; exact H
                               |apply Exists_cons_tl]).
Qed.

Lemma block_sum_absorbs (a : list F) : Exists P a -> P (block_sum a).
Proof.
  intros H.
  destruct (Nat.ltb_spec (length a) 8) as [L|L].
  - rewrite block_sum_short by exact L. apply fold_absorbs. right. exact H.
  - destruct a as [|b0 [|b1 [|b2 [|b3 [|b4 [|b5 [|b6 [|b7 a]]]]]]]];
      try (simpl in L; lia).
    cbn [block_sum]. apply unrolled_sum_absorbs.
    repeat (apply Exists_cons in H; destruct H as [H|H]); [..|right; exact H].
    all: left; repeat (first [apply Exists_cons_hd; exact H|apply Exists_cons_tl]).
Qed.

Lemma pairwise_sum_absorbs (a : list F) : Exists P a -> P (pairwise_sum a).
Proof.
  induction a as [a Hshort|a Hlong IH1 IH2] using pairwise_sum_splits; intros H.
  - rewrite pairwise_sum_short by exact Hshort. apply block_sum_absorbs. exact H.
  - rewrite pairwise_sum_long by exact Hlong.
    rewrite <- (firstn_skipn (split_point (length a)) a) in H.
    apply Exists_app in H. destruct H as [H|H].
    + apply P_add_l. apply IH1. exact H.
    + apply P_add_r. apply IH2. exact H.
Qed.

Lemma np_sum_absorbs (a : list F) : Exists P a -> P (np_sum a).
Proof.
  intros H. destruct a as [|x a]; [inversion H|].
  unfold np_sum. apply P_add_r. apply pairwise_sum_absorbs. exact H.
Qed.

End Absorbing.

(** A property that sums keep, and that adding to [-0.0] keeps, passes from
    all the elements of an array that is not empty to [np.sum]. *)
Section Closed.
Variable Q : F -> Prop.
Hypothesis Q_add : forall x y, Q x -> Q y -> Q (f_add x y).
Hypothesis Q_start : forall x, Q x -> Q (f_add f_neg_zero x).

Lemma fold_closed (a : list F) (acc : F) :
  Q acc -> Forall Q a -> Q (fold_left f_add a acc).
Proof.
  revert acc. induction a as [|x a IH]; intros acc Hacc H; simpl; [exact Hacc|].
  inversion H; subst. apply IH; [apply Q_add|]; assumption.
Qed.

Lemma unrolled_sum_closed (a : list F) :
  forall r0 r1 r2 r3 r4 r5 r6 r7 : F,
    Forall Q [r0; r1; r2; r3; r4; r5; r6; r7] -> Forall Q a ->
    Q (unrolled_sum r0 r1 r2 r3 r4 r5 r6 r7 a).
Proof.
  induction a as [a Hshort|b0 b1 b2 b3 b4 b5 b6 b7 a IH] using list_ind8;
    intros r0 r1 r2 r3 r4 r5 r6 r7 Hr H.
  - rewrite unrolled_sum_short by exact Hshort.
    repeat (apply Forall_cons_iff in Hr; destruct Hr as [? Hr]).
    apply fold_closed; [|exact H]. auto 8.
  - cbn [unrolled_sum].
    repeat (apply Forall_cons_iff in Hr; destruct Hr as [? Hr]).
    repeat (apply Forall_cons_iff in H; destruct H as [? H]).
    apply IH; [|exact H]. repeat constructor; auto.
Qed.

Lemma block_sum_closed (a : list F) : a <> [] -> Forall Q a -> Q (block_sum a).
Proof.
  intros N H.
  destruct (Nat.ltb_spec (length a) 8) as [L|L].
  - rewrite block_sum_short by exact L.
    destruct a as [|x a]; [contradiction|]. simpl.
    inversion H; subst. apply fold_closed; [apply Q_start|]; assumption.
  - destruct a as [|b0 [|b1 [|b2 [|b3 [|b4 [|b5 [|b6 [|b7 a]]]]]]]];
      try (simpl in L; lia).
    cbn [block_sum].
    repeat (apply Forall_cons_iff in H; destruct H as [? H]).
    apply unrolled_sum_closed; [|exact H]. repeat constructor; auto.
Qed.

Lemma pairwise_sum_closed (a : list F) : a <> [] -> Forall Q a -> Q (pairwise_sum a).
Proof.
  induction a as [a Hshort|a Hlong IH1 IH2] using pairwise_sum_splits; intros N H.
  - rewrite pairwise_sum_short by exact Hshort. apply block_sum_closed; assumption.
  - rewrite pairwise_sum_long by exact Hlong.
    pose proof (split_point_bounds _ Hlong) as B.
    rewrite <- (firstn_skipn (split_point (length a)) a) in H.
    apply Forall_app in H. destruct H as [H1 H2].
    apply Q_add; [apply IH1|apply IH2]; try assumption.
    + intros E. apply (f_equal (@length F)) in E. rewrite length_firstn in E.
      simpl in E. lia.
    + intros E. apply (f_equal (@length F)) in E. rewrite length_skipn in E.
      simpl in E. lia.
Qed.

Lemma np_sum_closed (a : list F) : a <> [] -> Forall Q a -> Q (np_sum a).
Proof.
  intros N H. destruct a as [|x a]; [contradiction|].
  unfold np_sum. apply Q_start. apply pairwise_sum_closed; assumption.
Qed.

End Closed.

End NumpyFacts.

(** ** What [loglikelihood] and [mod_residuals] compute, bin by bin *)

Section Bins.
Context {F : Type} {A : Arith F} {L : Libm F}.

Lemma zip_sub_mul_log (u v : list F) :
  zip_with f_sub (zip_with f_mul u (map f_log v)) v
  = zip_with (fun x m => f_sub (f_mul x (f_log m)) m) u v.
Proof.
  revert v. induction u as [|x u IH]; intros [|m v]; simpl; try reflexivity.
  rewrite IH. reflexivity.
Qed.

Lemma zip_div_sub_sqrt (u v : list F) :
  zip_with f_div (zip_with f_sub u v) (map f_sqrt v)
  = zip_with (fun m c => f_div (f_sub m c) (f_sqrt c)) u v.
Proof.
  revert v. induction u as [|x u IH]; intros [|m v]; simpl; try reflexivity.
  rewrite IH. reflexivity.
Qed.

Lemma poisson_loglike_bins (ymodel ydata : list F) :
  length ymodel = length ydata ->
  poisson_loglike ymodel ydata
  = Some (finite_or_neg_inf (np_sum (zip_with bin_term ymodel ydata))).
Proof.
  intros E. unfold poisson_loglike.
  set (p := fun m : F => f_neq m f_zero).
  assert (Ed : length ydata = length (map p ymodel)) by (rewrite length_map; auto).
  assert (Em : length ymodel = length (map p ymodel)) by (rewrite length_map; auto).
  rewrite (mask_get_same_length _ _ Ed), (mask_get_same_length _ _ Em). cbn [obind].
  rewrite elementwise_same_length
    by (rewrite length_map, !take_mask_length by assumption; reflexivity).
  cbn [obind].
  rewrite elementwise_same_length
    by (rewrite zip_with_length; rewrite ?length_map, !take_mask_length by assumption;
        reflexivity).
  cbn [obind]. rewrite zip_sub_mul_log.
  unfold mask_set.
  replace (length (np_zeros (length ymodel)) =? length (map p ymodel)) with true
    by (unfold np_zeros; rewrite repeat_length, length_map, Nat.eqb_refl; reflexivity).
  rewrite zip_with_length by (rewrite !take_mask_length by assumption; reflexivity).
  rewrite take_mask_length, Nat.eqb_refl by assumption. cbn [andb obind].
  rewrite Em.
  rewrite !(put_take_zip (fun x m => f_sub (f_mul x (f_log m)) m) p ydata ymodel)
    by (symmetry; assumption).
  rewrite zip_with_flip. reflexivity.
Qed.

Lemma poisson_loglike_length_error (ymodel ydata : list F) :
  ymodel <> [] -> length ymodel <> length ydata -> poisson_loglike ymodel ydata = None.
Proof.
  intros N E. unfold poisson_loglike.
  rewrite mask_get_other_length; [reflexivity| |rewrite length_map; auto].
  destruct ymodel; [contradiction|discriminate].
Qed.

(** An empty model histogram gives an empty mask, which numpy does not check
    against the counts: nothing is selected, nothing is summed. *)
Lemma poisson_loglike_empty_model (ydata : list F) :
  poisson_loglike [] ydata = Some (finite_or_neg_inf f_zero).
Proof. reflexivity. Qed.

End Bins.

(* ================================================================== *)
(** ** binary64: halving keeps a number finite; NaN is absorbing *)

(** The division of [SpecFloat] is followed through its two shifts and its
    rounding step with one invariant: the mantissa times two to the exponent
    stays below [2^1023], the exponent stays within [[-1074, 971]].  (Exponents
    are offset by 1200 to keep every power non-negative.) *)

Section Binary64Rounding.
Local Open Scope Z_scope.

(** A positive number of [d] binary digits lies in [[2^(d-1), 2^d)]. *)
Lemma digits2_pos_lower (p : positive) : 2 ^ (Zpos (digits2_pos p) - 1) <= Zpos p.
Proof.
  induction p as [p IH|p IH|]; simpl digits2_pos.
  - rewrite Pos2Z.inj_succ. replace (Z.succ (Zpos (digits2_pos p)) - 1)
      with (Z.succ (Zpos (digits2_pos p) - 1)) by lia.
    rewrite Z.pow_succ_r by lia. lia.
  - rewrite Pos2Z.inj_succ. replace (Z.succ (Zpos (digits2_pos p)) - 1)
      with (Z.succ (Zpos (digits2_pos p) - 1)) by lia.
    rewrite Z.pow_succ_r by lia. lia.
  - simpl. lia.
Qed.

Lemma digits2_pos_upper (p : positive) : Zpos p < 2 ^ Zpos (digits2_pos p).
Proof.
  induction p as [p IH|p IH|]; simpl digits2_pos.
  - rewrite Pos2Z.inj_succ, Z.pow_succ_r by lia. lia.
  - rewrite Pos2Z.inj_succ, Z.pow_succ_r by lia. lia.
  - simpl. lia.
Qed.

Lemma Zdigits2_le (x k : Z) : 0 <= x -> 0 <= k -> x < 2 ^ k -> Zdigits2 x <= k.
Proof.
  intros Hx Hk H. destruct x as [|p|p]; simpl; try lia.
  pose proof (digits2_pos_lower p) as L.
  assert (P : 2 ^ (Zpos (digits2_pos p) - 1) < 2 ^ k) by lia.
  apply Z.pow_lt_mono_r_iff in P; lia.
Qed.

(** One right shift at least halves the mantissa; [n] shifts divide it by
    [2^n] or more. *)
Lemma shr_1_halves (mrs : shr_record) :
  0 <= shr_m mrs -> 0 <= shr_m (shr_1 mrs) /\ 2 * shr_m (shr_1 mrs) <= shr_m mrs.
Proof.
  destruct mrs as [m r s]. simpl. destruct m as [|[p|p|]|p]; simpl; lia.
Qed.

Lemma iter_pos_counted (T : Type) (Q : Z -> T -> Prop) (f : T -> T) :
  (forall k x, 0 <= k -> Q k x -> Q (k + 1) (f x)) ->
  forall n k x, 0 <= k -> Q k x -> Q (k + Zpos n) (SpecFloat.iter_pos f n x).
Proof.
  intros Hf. induction n as [n IH|n IH|]; intros k x Hk Hx; simpl.
  - replace (k + Zpos n~1) with (k + 1 + Zpos n + Zpos n) by lia.
    apply IH; [lia|]. apply IH; [lia|]. apply Hf; assumption.
  - replace (k + Zpos n~0) with (k + Zpos n + Zpos n) by lia.
    apply IH; [lia|]. apply IH; assumption.
  - apply Hf; assumption.
Qed.

Lemma shr_shrinks (mrs : shr_record) (e n : Z) :
  0 <= shr_m mrs ->
  0 <= shr_m (fst (shr mrs e n))
  /\ snd (shr mrs e n) = e + Z.max n 0
  /\ shr_m (fst (shr mrs e n)) * 2 ^ Z.max n 0 <= shr_m mrs.
Proof.
  intros H. destruct n as [|p|p]; simpl.
  - repeat split; lia.
  - assert (I : 0 <= shr_m (SpecFloat.iter_pos shr_1 p mrs)
                /\ shr_m (SpecFloat.iter_pos shr_1 p mrs) * 2 ^ (0 + Zpos p) <= shr_m mrs).
    { apply (iter_pos_counted shr_record
               (fun k r => 0 <= shr_m r /\ shr_m r * 2 ^ k <= shr_m mrs) shr_1).
      - intros k x Hk [Hx1 Hx2]. destruct (shr_1_halves x Hx1) as [a b].
        split; [exact a|]. rewrite Z.pow_add_r, Z.pow_1_r by lia. nia.
      - lia.
      - split; [exact H|]. simpl. lia. }
    destruct I as [I1 I2]. repeat split; try assumption; lia.
  - repeat split; lia.
Qed.

Lemma fexp_is_fexp64 (k : Z) : fexp prec emax k = fexp64 k.
Proof. reflexivity. Qed.

(** Shifting keeps the value under the bound and the exponent in range. *)
Lemma shr_fexp_bounded (m e : Z) (l : location) :
  0 <= m -> -1074 <= e <= 971 -> m * 2 ^ (e + 1200) < 2 ^ 2224 ->
  0 <= shr_m (fst (shr_fexp prec emax m e l))
  /\ -1074 <= snd (shr_fexp prec emax m e l) <= 971
  /\ shr_m (fst (shr_fexp prec emax m e l))
       * 2 ^ (snd (shr_fexp prec emax m e l) + 1200) <= m * 2 ^ (e + 1200).
Proof.
  intros Hm He Hb. unfold shr_fexp. rewrite fexp_is_fexp64.
  set (n := fexp64 (Zdigits2 m + e) - e).
  assert (Hrec : shr_m (shr_record_of_loc m l) = m) by (destruct l as [|[]]; reflexivity).
  destruct (shr_shrinks (shr_record_of_loc m l) e n) as (S1 & S2 & S3).
  { rewrite Hrec. exact Hm. }
  rewrite Hrec in S3. rewrite S2.
  assert (Hd : Zdigits2 m + e <= 1024).
  { assert (Zdigits2 m <= 1024 - e); [|lia].
    apply Zdigits2_le; try lia.
    assert (m * 2 ^ (e + 1200) < 2 ^ (1024 - e) * 2 ^ (e + 1200)); [|
      apply Z.mul_lt_mono_pos_r in H; [exact H|apply Z.pow_pos_nonneg; lia]].
    rewrite <- Z.pow_add_r by lia. replace (1024 - e + (e + 1200)) with 2224 by lia.
    exact Hb. }
  assert (Hn : e + Z.max n 0 <= 971) by (unfold n, fexp64; lia).
  split; [exact S1|]. split; [lia|].
  replace (e + Z.max n 0 + 1200) with (Z.max n 0 + (e + 1200)) by lia.
  rewrite Z.pow_add_r by lia.
  assert (0 < 2 ^ (e + 1200)) by (apply Z.pow_pos_nonneg; lia).
  nia.
Qed.

(** Rounding to nearest adds at most one unit in the last place. *)
Lemma round_nearest_even_bounds (m : Z) (l : location) :
  0 <= m -> 0 <= round_nearest_even m l <= m + 1.
Proof.
  intros H. destruct l as [|[]]; simpl; try lia. destruct (Z.even m); lia.
Qed.

(** A value below [2^1023] is rounded to zero or to a finite number, never to
    an infinity. *)
Lemma binary_round_aux_finite (s : bool) (m e : Z) (l : location) :
  0 <= m -> -1074 <= e <= 971 -> m * 2 ^ (e + 1200) <= 2 ^ 2223 ->
  finite_or_zero (binary_round_aux prec emax s m e l).
Proof.
  intros Hm He Hb. unfold binary_round_aux.
  assert (P2223 : 2 ^ 2223 < 2 ^ 2224) by (apply Z.pow_lt_mono_r; lia).
  destruct (shr_fexp_bounded m e l Hm He ltac:(lia)) as (A1 & A2 & A3).
  destruct (shr_fexp prec emax m e l) as [mrs' e'] eqn:E1. simpl in A1, A2, A3.
  pose proof (round_nearest_even_bounds (shr_m mrs') (loc_of_shr_record mrs') A1) as R.
  set (m1 := round_nearest_even (shr_m mrs') (loc_of_shr_record mrs')) in *.
  assert (B1 : m1 * 2 ^ (e' + 1200) < 2 ^ 2224).
  { assert (2 ^ (e' + 1200) <= 2 ^ 2171) by (apply Z.pow_le_mono_r; lia).
    assert (2 ^ 2223 + 2 ^ 2171 < 2 ^ 2224).
    { replace 2224 with (2223 + 1) by lia. rewrite Z.pow_add_r by lia.
      assert (2 ^ 2171 < 2 ^ 2223) by (apply Z.pow_lt_mono_r; lia). lia. }
    nia. }
  destruct (shr_fexp_bounded m1 e' loc_Exact ltac:(lia) A2 B1) as (C1 & C2 & C3).
  destruct (shr_fexp prec emax m1 e' loc_Exact) as [mrs'' e''] eqn:E2.
  simpl in C1, C2, C3.
  destruct (shr_m mrs'') as [|q|q]; simpl.
  - exact I.
  - change (emax - prec) with 971.
    destruct (Z.leb_spec e'' 971); [exact I|lia].
  - lia.
Qed.

(** Halving a finite binary64 number gives a finite number. *)
Lemma SFdiv_two_finite (x : spec_float) :
  valid_binary x = true -> finite_or_zero x ->
  finite_or_zero (SFdiv prec emax x (S754_finite false 4503599627370496 (-51))).
Proof.
  intros Hv Hx. destruct x as [sx|sx| |sx mx ex]; simpl in Hx; try contradiction.
  - exact I.
  - simpl in Hv. unfold bounded, canonical_mantissa in Hv.
    apply andb_prop in Hv as [Hc Hb].
    apply Z.eqb_eq in Hc. apply Z.leb_le in Hb.
    rewrite fexp_is_fexp64 in Hc. change (emax - prec) with 971 in Hb.
    unfold SFdiv, SFdiv_core_binary.
    change (Zdigits2 (Z.pos mx)) with (Zpos (digits2_pos mx)).
    change (Zdigits2 4503599627370496) with 53.
    rewrite fexp_is_fexp64.
    pose proof (digits2_pos_upper mx) as U.
    set (d := Zpos (digits2_pos mx)) in *.
    assert (Hd : 1 <= d <= 53) by (unfold fexp64 in Hc; lia).
    clearbody d.
    set (e' := Z.min (fexp64 (d + ex - (53 + -51))) (ex - -51)).
    assert (He' : -1074 <= e' <= ex) by (unfold e', fexp64 in *; lia).
    clearbody e'.
    set (s := ex - -51 - e').
    assert (Hs : 0 <= s) by (unfold s; lia).
    assert (Es : s + e' = ex + 51) by (unfold s; lia).
    clearbody s.
    set (m' := match s with Zpos _ => Z.shiftl (Zpos mx) s | Z0 => Zpos mx | Zneg _ => 0 end).
    assert (Hm' : m' = Zpos mx * 2 ^ s).
    { unfold m'. destruct s as [|p|p]; try lia.
      rewrite Z.shiftl_mul_pow2 by lia. reflexivity. }
    clearbody m'.
    pose proof (Z_div_mod m' 4503599627370496 eq_refl) as D.
    destruct (Z.div_eucl m' 4503599627370496) as [q r]. destruct D as [D1 D2].
    assert (Hq : 0 <= q) by nia.
    apply binary_round_aux_finite; [exact Hq|lia|].
    assert (T : q * 2 ^ 52 <= Zpos mx * 2 ^ s) by (change (2 ^ 52) with 4503599627370496; lia).
    assert (P : 2 ^ (e' + 1200) * 2 ^ s = 2 ^ (ex + 1199) * 2 ^ 52).
    { rewrite <- !Z.pow_add_r by lia. f_equal. lia. }
    assert (Q : Zpos mx * 2 ^ (ex + 1199) < 2 ^ 2223).
    { assert (2 ^ d * 2 ^ (ex + 1199) <= 2 ^ 2223).
      { rewrite <- Z.pow_add_r by lia. apply Z.pow_le_mono_r; lia. }
      assert (0 < 2 ^ (ex + 1199)) by (apply Z.pow_pos_nonneg; lia).
      nia. }
    assert (0 < 2 ^ (e' + 1200)) by (apply Z.pow_pos_nonneg; lia).
    assert (0 < 2 ^ s) by (apply Z.pow_pos_nonneg; lia).
    assert (0 < 2 ^ (ex + 1199)) by (apply Z.pow_pos_nonneg; lia).
    assert (W : q * 2 ^ (e' + 1200) * 2 ^ 52 <= Zpos mx * 2 ^ (ex + 1199) * 2 ^ 52).
    { replace (Zpos mx * 2 ^ (ex + 1199) * 2 ^ 52)
        with (Zpos mx * (2 ^ (ex + 1199) * 2 ^ 52)) by ring.
      rewrite <- P. nia. }
    assert (0 < 2 ^ 52) by (apply Z.pow_pos_nonneg; lia).
    apply Z.mul_le_mono_pos_r in W; [lia|assumption].
Qed.

End Binary64Rounding.

Section B64Arith.
Local Open Scope float_scope.

Lemma add_nan_l x : nan + x = nan.
Proof.
  apply Prim2SF_inj. rewrite add_spec. change (Prim2SF nan) with S754_nan.
  reflexivity.
Qed.

Lemma add_nan_r x : x + nan = nan.
Proof.
  apply Prim2SF_inj. rewrite add_spec. change (Prim2SF nan) with S754_nan.
  destruct (Prim2SF x); reflexivity.
Qed.

Lemma mul_nan_r x : x * nan = nan.
Proof.
  apply Prim2SF_inj. rewrite mul_spec. change (Prim2SF nan) with S754_nan.
  destruct (Prim2SF x); reflexivity.
Qed.

Lemma sub_nan_l x : nan - x = nan.
Proof.
  apply Prim2SF_inj. rewrite sub_spec. change (Prim2SF nan) with S754_nan.
  reflexivity.
Qed.

Lemma SFcompare_refl x : x <> S754_nan -> SFcompare x x = Some Eq.
Proof.
  destruct x as [s|s| |s m e]; simpl; intros H; try congruence.
  - destruct s; reflexivity.
  - rewrite Z.compare_refl, Pos.compare_cont_refl. destruct s; reflexivity.
Qed.

Lemma is_nan_true x : is_nan x = true -> x = nan.
Proof.
  unfold is_nan. rewrite eqb_spec. unfold SFeqb. intros H.
  apply Prim2SF_inj. change (Prim2SF nan) with S754_nan.
  destruct (Prim2SF x) as [s|s| |s m e] eqn:E; try reflexivity;
    rewrite SFcompare_refl in H by discriminate; discriminate.
Qed.

Lemma is_finite_not_nan x : is_finite x = true -> is_nan x = false.
Proof.
  unfold is_finite. destruct (is_nan x); simpl; congruence.
Qed.

Lemma is_finite_spec (x : float) :
  is_finite x = true <-> finite_or_zero (Prim2SF x).
Proof.
  unfold is_finite, is_nan, is_infinity. rewrite !eqb_spec, abs_spec.
  change (Prim2SF infinity) with (S754_infinity false). unfold SFeqb.
  destruct (Prim2SF x) as [s|s| |s m e]; simpl;
    rewrite ?Z.compare_refl, ?Pos.compare_cont_refl; try destruct s; simpl;
    intuition discriminate.
Qed.

Lemma half_opp_finite (x : float) :
  is_finite x = true -> is_finite (- x / 2) = true.
Proof.
  intros H. apply is_finite_spec in H. apply is_finite_spec.
  rewrite div_spec, opp_spec.
  change (Prim2SF 2) with (S754_finite false 4503599627370496 (-51)).
  pose proof (Prim2SF_valid x) as V.
  apply SFdiv_two_finite.
  - destruct (Prim2SF x); exact V.
  - destruct (Prim2SF x); exact H.
Qed.

(** *** Comparisons with zero *)

Lemma ltb_zero_neq x : (x <? 0) = true -> (x =? 0) = false.
Proof.
  rewrite ltb_spec, eqb_spec. unfold SFltb, SFeqb.
  destruct (SFcompare (Prim2SF x) (Prim2SF 0)) as [[]|]; congruence.
Qed.

Lemma nonneg_neq_zero x : (0 <=? x) = true -> negb (x =? 0) = (0 <? x).
Proof.
  rewrite leb_spec, ltb_spec, eqb_spec. unfold SFleb, SFltb, SFeqb.
  change (Prim2SF 0) with (S754_zero false).
  destruct (Prim2SF x) as [s|s| |s m e]; simpl; try destruct s; simpl; congruence.
Qed.

(** *** Zero times anything *)

Lemma mul_zero_cases x : 0 * x = 0 \/ 0 * x = -0 \/ 0 * x = nan.
Proof.
  assert (H : Prim2SF (0 * x) = S754_zero false \/ Prim2SF (0 * x) = S754_zero true
              \/ Prim2SF (0 * x) = S754_nan).
  { rewrite mul_spec. change (Prim2SF 0) with (S754_zero false).
    destruct (Prim2SF x) as [[]|[]| |[] m e]; simpl; auto. }
  destruct H as [H|[H|H]]; [left|right; left|right; right];
    apply Prim2SF_inj; rewrite H; reflexivity.
Qed.

End B64Arith.

Section B64Bins.
Local Open Scope float_scope.
Variables libm_log libm_pow10 : float -> float.
Local Abbreviation bin_term64 := (bin_term (L := B64.libm libm_log libm_pow10)).

(** *** Bins that poison the sum *)

Lemma bin_term_nan x : bin_term64 nan x = nan.
Proof.
  unfold bin_term. cbn. rewrite mul_nan_r. reflexivity.
Qed.

Lemma np_log_negative x : (x <? 0) = true -> B64.np_log libm_log x = nan.
Proof.
  intros H. unfold B64.np_log. rewrite H. destruct (is_nan x); reflexivity.
Qed.

Lemma bin_term_negative m x : (m <? 0) = true -> bin_term64 m x = nan.
Proof.
  intros H. unfold bin_term. cbn. rewrite (ltb_zero_neq _ H). cbn.
  rewrite np_log_negative by assumption. rewrite mul_nan_r. apply sub_nan_l.
Qed.

Lemma np_sum_has_nan (l : list float) : In nan l -> np_sum l = nan.
Proof.
  intros H. apply (np_sum_absorbs (fun x => x = nan)).
  - intros x y E. subst x. apply add_nan_l.
  - intros x y E. subst y. apply add_nan_r.
  - apply Exists_exists. exists nan. split; [exact H|reflexivity].
Qed.

Lemma in_zip_with_bin_term (m : float) (ymodel ydata : list float) :
  length ymodel = length ydata -> In m ymodel ->
  exists x, In (bin_term64 m x) (zip_with bin_term64 ymodel ydata).
Proof.
  revert ydata. induction ymodel as [|m' ym IH]; intros [|x yd] E H; simpl in *;
    try discriminate; try contradiction.
  injection E as E. destruct H as [H|H].
  - subst m'. exists x. left. reflexivity.
  - destruct (IH yd E H) as [x' Hx']. exists x'. right. exact Hx'.
Qed.

(** A bin whose contribution is NaN whatever was observed sends
    [loglikelihood] to [-inf]. *)
Lemma poisoned_bin_gives_neg_inf (m : float) (ymodel ydata : list float) :
  (forall x, bin_term64 m x = nan) ->
  length ymodel = length ydata -> In m ymodel ->
  poisson_loglike (L := B64.libm libm_log libm_pow10) ymodel ydata = Some neg_infinity.
Proof.
  intros Hm E H. rewrite poisson_loglike_bins by assumption.
  destruct (in_zip_with_bin_term _ _ _ E H) as [x Hx]. rewrite Hm in Hx.
  rewrite (np_sum_has_nan _ Hx). reflexivity.
Qed.

End B64Bins.

(* ================================================================== *)
(** ** binary64: rounding keeps a sum or a product on its side of a
       representable bound *)

(** [SpecFloat] rounds an exact result [M * 2^E] in three steps: a right shift
    to the exponent of the format, round to nearest even, and one more shift
    when the mantissa has grown to [2^53].  Values are compared as integers,
    scaled by [2^1200]. *)

Section Binary64Nearest.
Local Open Scope Z_scope.

Lemma shr_1_exact (mrs : shr_record) :
  0 <= shr_m mrs ->
  shr_m (shr_1 mrs) = shr_m mrs / 2
  /\ (shr_r (shr_1 mrs) = false -> shr_m mrs mod 2 = 0)
  /\ (shr_m mrs mod 2 = 0 -> shr_r (shr_1 mrs) = false)
  /\ shr_s (shr_1 mrs) = (shr_r mrs || shr_s mrs)%bool.
Proof.
  destruct mrs as [m r s]. simpl. intros H.
  destruct m as [|[p|p|]|p]; simpl; try lia.
  - repeat split; auto.
  - assert (E : Zpos p~1 = 2 * Zpos p + 1) by lia.
    repeat split.
    + rewrite E. apply (Z.div_unique _ 2 (Zpos p) 1); lia.
    + discriminate.
    + rewrite E. intros M.
      rewrite Z.add_comm, Z.mul_comm, Z.mod_add in M by lia. discriminate.
  - assert (E : Zpos p~0 = 2 * Zpos p) by lia.
    repeat split.
    + rewrite E. apply (Z.div_unique _ 2 (Zpos p) 0); lia.
    + intros _. rewrite E, Z.mul_comm. apply Z.mod_mul. lia.
  - repeat split; auto; intros D; discriminate D.
Qed.

(** [n] right shifts of an exact mantissa: the quotient by [2^n], and no
    round or sticky bit when the division is exact. *)
Lemma shr_exact (M e n : Z) :
  0 <= M -> 0 <= n ->
  snd (shr (Build_shr_record M false false) e n) = e + n
  /\ shr_m (fst (shr (Build_shr_record M false false) e n)) = M / 2 ^ n
  /\ (M mod 2 ^ n = 0 ->
      loc_of_shr_record (fst (shr (Build_shr_record M false false) e n)) = loc_Exact).
Proof.
  intros HM Hn. destruct n as [|p|p]; try lia.
  - simpl. rewrite Z.div_1_r. repeat split; lia.
  - simpl shr. cbn [fst snd]. split; [reflexivity|].
    assert (I : 0 <= shr_m (SpecFloat.iter_pos shr_1 p (Build_shr_record M false false))
                /\ shr_m (SpecFloat.iter_pos shr_1 p (Build_shr_record M false false))
                   = M / 2 ^ (0 + Zpos p)
                /\ (M mod 2 ^ (0 + Zpos p) = 0 ->
                    shr_r (SpecFloat.iter_pos shr_1 p (Build_shr_record M false false)) = false
                    /\ shr_s (SpecFloat.iter_pos shr_1 p (Build_shr_record M false false))
                       = false)).
    { apply (iter_pos_counted shr_record
               (fun k r => 0 <= shr_m r /\ shr_m r = M / 2 ^ k
                           /\ (M mod 2 ^ k = 0 -> shr_r r = false /\ shr_s r = false))
               shr_1).
      - intros k x Hk (X0 & X1 & X2).
        destruct (shr_1_exact x X0) as (S1 & S2 & S3 & S4).
        assert (P : 0 < 2 ^ k) by (apply Z.pow_pos_nonneg; lia).
        assert (E2 : 2 ^ (k + 1) = 2 ^ k * 2) by (rewrite Z.pow_add_r, Z.pow_1_r; lia).
        split; [rewrite S1; apply Z.div_pos; lia|].
        split.
        + rewrite S1, X1, E2, Z.div_div by lia. reflexivity.
        + intros Hmod. rewrite E2 in Hmod.
          rewrite Z.rem_mul_r in Hmod by lia.
          assert (A1 : 0 <= M mod 2 ^ k < 2 ^ k) by (apply Z.mod_pos_bound; lia).
          assert (A2 : 0 <= (M / 2 ^ k) mod 2 < 2) by (apply Z.mod_pos_bound; lia).
          assert (B1 : M mod 2 ^ k = 0) by nia.
          assert (B2 : (M / 2 ^ k) mod 2 = 0) by nia.
          destruct (X2 B1) as [R0 S0].
          split; [apply S3; rewrite X1; exact B2|].
          rewrite S4, R0, S0. reflexivity.
      - lia.
      - simpl. rewrite Z.div_1_r. repeat split; try lia. }
    destruct I as (_ & I1 & I2). split; [exact I1|].
    intros Hmod. destruct (I2 Hmod) as [R0 S0].
    destruct (SpecFloat.iter_pos shr_1 p (Build_shr_record M false false)) as [m r s].
    simpl in R0, S0. subst r s. reflexivity.
Qed.

Lemma Zdigits2_bounds (M : Z) :
  0 < M -> 2 ^ (Zdigits2 M - 1) <= M < 2 ^ Zdigits2 M.
Proof.
  intros H. destruct M as [|p|p]; try lia. simpl.
  split; [apply digits2_pos_lower|apply digits2_pos_upper].
Qed.

Lemma Zdigits2_nonneg (M : Z) : 0 <= M -> 0 <= Zdigits2 M.
Proof. destruct M; simpl; lia. Qed.

(** The result of rounding [M * 2^E], for a mantissa that sits at or below the
    exponent of the format: the mantissa [m2] is the quotient by [2^n] or one
    more, it is the quotient when the division is exact, and a mantissa of
    [2^53] moves to the next exponent. *)
Lemma binary_round_aux_cases (s : bool) (M E : Z) :
  0 <= M -> E <= fexp64 (Zdigits2 M + E) ->
  exists m2 : Z,
    M / 2 ^ (fexp64 (Zdigits2 M + E) - E) <= m2 <= M / 2 ^ (fexp64 (Zdigits2 M + E) - E) + 1
    /\ (M mod 2 ^ (fexp64 (Zdigits2 M + E) - E) = 0 ->
        m2 = M / 2 ^ (fexp64 (Zdigits2 M + E) - E))
    /\ m2 <= 2 ^ 53
    /\ binary_round_aux prec emax s M E loc_Exact
       = if m2 =? 2 ^ 53
         then (if fexp64 (Zdigits2 M + E) + 1 <=? 971
               then S754_finite s 4503599627370496 (fexp64 (Zdigits2 M + E) + 1)
               else S754_infinity s)
         else match m2 with
              | Z0 => S754_zero s
              | Zpos p => if fexp64 (Zdigits2 M + E) <=? 971
                          then S754_finite s p (fexp64 (Zdigits2 M + E))
                          else S754_infinity s
              | Zneg _ => S754_nan
              end.
Proof.
  intros HM Hc.
  set (e1 := fexp64 (Zdigits2 M + E)) in *.
  set (n := e1 - E).
  assert (Hn : 0 <= n) by (unfold n; lia).
  assert (He1 : -1074 <= e1) by (unfold e1, fexp64; lia).
  assert (Pn : 0 < 2 ^ n) by (apply Z.pow_pos_nonneg; lia).
  assert (Hm1 : 0 <= M / 2 ^ n < 2 ^ 53).
  { split; [apply Z.div_pos; lia|].
    apply Z.div_lt_upper_bound; [lia|].
    rewrite <- Z.pow_add_r by lia.
    destruct (Z.eq_dec M 0) as [Z0|NZ].
    - rewrite Z0. apply Z.pow_pos_nonneg; lia.
    - pose proof (Zdigits2_bounds M ltac:(lia)) as [_ U].
      eapply Z.lt_le_trans; [exact U|].
      apply Z.pow_le_mono_r; [lia|]. unfold n, e1, fexp64. lia. }
  unfold binary_round_aux, shr_fexp. rewrite !fexp_is_fexp64.
  change (shr_record_of_loc M loc_Exact) with (Build_shr_record M false false).
  fold e1. fold n.
  destruct (shr_exact M E n HM Hn) as (S1 & S2 & S3).
  destruct (shr (Build_shr_record M false false) E n) as [mrs' e'] eqn:E1.
  cbn [fst snd] in S1, S2, S3.
  assert (Ee : e' = e1) by (unfold n in S1; lia). clear S1 E1. rewrite Ee. clear Ee e'.
  rewrite !fexp_is_fexp64.
  pose proof (round_nearest_even_bounds (shr_m mrs') (loc_of_shr_record mrs')
                ltac:(rewrite S2; lia)) as R.
  set (m2 := round_nearest_even (shr_m mrs') (loc_of_shr_record mrs')) in *.
  assert (R1 : M / 2 ^ n <= m2).
  { unfold m2. rewrite <- S2. destruct (loc_of_shr_record mrs') as [|[]]; simpl; try lia.
    destruct (Z.even (shr_m mrs')); lia. }
  exists m2. split; [rewrite <- S2 at 2; lia|].
  split.
  { intros Hmod. unfold m2. rewrite (S3 Hmod). simpl. exact S2. }
  split; [rewrite S2 in R; lia|].
  change (shr_record_of_loc m2 loc_Exact) with (Build_shr_record m2 false false).
  destruct (Z.eqb_spec m2 (2 ^ 53)) as [C|C].
  - rewrite C. change (Zdigits2 (2 ^ 53)) with 54.
    replace (fexp64 (54 + e1) - e1) with 1 by (unfold fexp64; lia).
    cbn [shr SpecFloat.iter_pos shr_1 fst snd shr_m].
    change (2 ^ 53) with 9007199254740992. cbn [shr_1 shr_m].
    reflexivity.
  - assert (Hd : Zdigits2 m2 <= 53).
    { rewrite S2 in R. apply Zdigits2_le; lia. }
    assert (Hn2 : fexp64 (Zdigits2 m2 + e1) - e1 <= 0) by (unfold fexp64; lia).
    assert (Hs : shr (Build_shr_record m2 false false) e1 (fexp64 (Zdigits2 m2 + e1) - e1)
                 = (Build_shr_record m2 false false, e1)).
    { destruct (fexp64 (Zdigits2 m2 + e1) - e1) as [|p|p]; try reflexivity. lia. }
    rewrite Hs. cbn [shr_m]. change (emax - prec) with 971. reflexivity.
Qed.

(** A bound [mg * 2^eg] with a mantissa below [2^53] and an exponent from
    [-1074] on lies on the grid of every coarser exponent of the format: the
    quotient of a value at or above the bound stays at or above it, and the
    quotient plus one of a value at or below the bound, that is not on the
    grid itself, stays at or below it. *)
Lemma quotient_against_bound (M E mg eg : Z) :
  0 < M -> -1200 <= E -> E <= fexp64 (Zdigits2 M + E) ->
  0 < mg < 2 ^ 53 -> -1074 <= eg ->
  (mg * 2 ^ (eg + 1200) <= M * 2 ^ (E + 1200) ->
   mg * 2 ^ (eg + 1200)
   <= M / 2 ^ (fexp64 (Zdigits2 M + E) - E) * 2 ^ (fexp64 (Zdigits2 M + E) + 1200))
  /\ (M * 2 ^ (E + 1200) <= mg * 2 ^ (eg + 1200) ->
      M mod 2 ^ (fexp64 (Zdigits2 M + E) - E) <> 0 ->
      (M / 2 ^ (fexp64 (Zdigits2 M + E) - E) + 1) * 2 ^ (fexp64 (Zdigits2 M + E) + 1200)
      <= mg * 2 ^ (eg + 1200)).
Proof.
  intros HM HE Hc Hmg Heg.
  pose proof (Zdigits2_bounds M HM) as [DL DU].
  set (d := Zdigits2 M) in *.
  set (e1 := fexp64 (d + E)) in *.
  set (n := e1 - E).
  assert (Hn : 0 <= n) by (unfold n; lia).
  assert (He1 : -1074 <= e1) by (unfold e1, fexp64; lia).
  assert (Pn : 0 < 2 ^ n) by (apply Z.pow_pos_nonneg; lia).
  assert (PE : 0 < 2 ^ (E + 1200)) by (apply Z.pow_pos_nonneg; lia).
  assert (P1 : 2 ^ (e1 + 1200) = 2 ^ n * 2 ^ (E + 1200)).
  { rewrite <- Z.pow_add_r by lia. f_equal. unfold n. lia. }
  pose proof (Z.div_mod M (2 ^ n) ltac:(lia)) as DM.
  pose proof (Z.mod_pos_bound M (2 ^ n) Pn) as RM.
  set (m1 := M / 2 ^ n) in *. set (r := M mod 2 ^ n) in *.
  destruct (Z_le_gt_dec e1 eg) as [Hge|Hlt].
  - (* the bound is a multiple of the grid step *)
    assert (Pq : 2 ^ (eg + 1200) = 2 ^ (eg - e1) * 2 ^ (e1 + 1200)).
    { rewrite <- Z.pow_add_r by lia. f_equal. lia. }
    assert (Pq0 : 0 < 2 ^ (eg - e1)) by (apply Z.pow_pos_nonneg; lia).
    set (q := mg * 2 ^ (eg - e1)).
    assert (Eg : mg * 2 ^ (eg + 1200) = q * 2 ^ n * 2 ^ (E + 1200)).
    { unfold q. rewrite Pq, P1. ring. }
    rewrite Eg, P1. split.
    + intros H. assert (H1 : q * 2 ^ n <= M) by nia.
      assert (H2 : q <= m1) by nia.
      nia.
    + intros H Hr. assert (H1 : M <= q * 2 ^ n) by nia.
      assert (H2 : m1 + 1 <= q) by nia.
      nia.
  - (* the bound lies below the binade of the value *)
    assert (Ee : e1 = d + E - 53) by (unfold e1, fexp64 in *; lia).
    assert (En : n = d - 53) by (unfold n; lia).
    assert (Hm1 : 2 ^ 52 <= m1).
    { unfold m1. apply Z.div_le_lower_bound; [lia|].
      rewrite <- Z.pow_add_r by lia. replace (n + 52) with (d - 1) by lia. exact DL. }
    assert (Hg : mg * 2 ^ (eg + 1200) < 2 ^ 52 * 2 ^ (e1 + 1200)).
    { assert (G1 : 2 ^ 53 * 2 ^ (eg + 1200) <= 2 ^ 52 * 2 ^ (e1 + 1200)).
      { rewrite <- !Z.pow_add_r by lia. apply Z.pow_le_mono_r; lia. }
      assert (G2 : 0 < 2 ^ (eg + 1200)) by (apply Z.pow_pos_nonneg; lia).
      nia. }
    assert (P2 : 0 < 2 ^ (e1 + 1200)) by (apply Z.pow_pos_nonneg; lia).
    split.
    + intros _. nia.
    + intros H _. exfalso.
      assert (m1 * 2 ^ (e1 + 1200) <= M * 2 ^ (E + 1200)) by (rewrite P1; nia).
      nia.
Qed.

(** Rounding a value at or above the bound gives a number at or above it, or
    overflows. *)
Lemma round_at_or_above (s : bool) (M E mg eg : Z) :
  0 < M -> -1200 <= E -> E <= fexp64 (Zdigits2 M + E) ->
  0 < mg < 2 ^ 53 -> -1074 <= eg ->
  mg * 2 ^ (eg + 1200) <= M * 2 ^ (E + 1200) ->
  binary_round_aux prec emax s M E loc_Exact = S754_infinity s
  \/ exists m e, binary_round_aux prec emax s M E loc_Exact = S754_finite s m e
                 /\ mg * 2 ^ (eg + 1200) <= Zpos m * 2 ^ (e + 1200).
Proof.
  intros HM HE Hc Hmg Heg H.
  destruct (quotient_against_bound M E mg eg HM HE Hc Hmg Heg) as [Q _].
  specialize (Q H).
  destruct (binary_round_aux_cases s M E ltac:(lia) Hc) as (m2 & B & _ & _ & R).
  set (e1 := fexp64 (Zdigits2 M + E)) in *.
  assert (He1 : -1074 <= e1) by (unfold e1, fexp64; lia).
  assert (P1 : 0 < 2 ^ (e1 + 1200)) by (apply Z.pow_pos_nonneg; lia).
  assert (Pg : 0 < mg * 2 ^ (eg + 1200)).
  { apply Z.mul_pos_pos; [lia|apply Z.pow_pos_nonneg; lia]. }
  assert (V : mg * 2 ^ (eg + 1200) <= m2 * 2 ^ (e1 + 1200)) by nia.
  rewrite R. destruct (Z.eqb_spec m2 (2 ^ 53)) as [C|C].
  - destruct (e1 + 1 <=? 971); [right|left; reflexivity].
    eexists _, _. split; [reflexivity|].
    replace (e1 + 1 + 1200) with (1 + (e1 + 1200)) by lia.
    rewrite (Z.pow_add_r 2 1 (e1 + 1200)) by lia. rewrite C in V.
    change (Zpos 4503599627370496) with (2 ^ 52).
    change (2 ^ 53) with (2 ^ 52 * 2 ^ 1) in V. lia.
  - destruct m2 as [|p|p]; try nia.
    destruct (e1 <=? 971); [right|left; reflexivity].
    eexists _, _. split; [reflexivity|exact V].
Qed.

(** Rounding a value at or below the bound gives a zero or a number at or
    below it, unless it overflows; and it does not overflow when the bound is
    below [2^1024]. *)
Lemma round_at_or_below (s : bool) (M E mg eg : Z) :
  0 <= M -> -1200 <= E -> E <= fexp64 (Zdigits2 M + E) ->
  0 < mg < 2 ^ 53 -> -1074 <= eg ->
  M * 2 ^ (E + 1200) <= mg * 2 ^ (eg + 1200) ->
  (binary_round_aux prec emax s M E loc_Exact = S754_zero s
   \/ (binary_round_aux prec emax s M E loc_Exact = S754_infinity s
       /\ 2 ^ 2224 <= mg * 2 ^ (eg + 1200))
   \/ exists m e, binary_round_aux prec emax s M E loc_Exact = S754_finite s m e
                  /\ Zpos m * 2 ^ (e + 1200) <= mg * 2 ^ (eg + 1200)).
Proof.
  intros HM HE Hc Hmg Heg H.
  destruct (binary_round_aux_cases s M E HM Hc) as (m2 & B & X & _ & R).
  set (e1 := fexp64 (Zdigits2 M + E)) in *.
  set (n := e1 - E) in *.
  assert (Hn : 0 <= n) by (unfold n; lia).
  assert (He1 : -1074 <= e1) by (unfold e1, fexp64; lia).
  assert (Pn : 0 < 2 ^ n) by (apply Z.pow_pos_nonneg; lia).
  assert (PE : 0 < 2 ^ (E + 1200)) by (apply Z.pow_pos_nonneg; lia).
  assert (P1 : 2 ^ (e1 + 1200) = 2 ^ n * 2 ^ (E + 1200)).
  { rewrite <- Z.pow_add_r by lia. f_equal. unfold n. lia. }
  assert (P0 : 0 < 2 ^ (e1 + 1200)) by (apply Z.pow_pos_nonneg; lia).
  assert (Hm1 : 0 <= M / 2 ^ n) by (apply Z.div_pos; lia).
  assert (V : m2 * 2 ^ (e1 + 1200) <= mg * 2 ^ (eg + 1200)).
  { destruct (Z.eq_dec (M mod 2 ^ n) 0) as [Z0|NZ].
    - rewrite (X Z0). pose proof (Z.div_mod M (2 ^ n) ltac:(lia)) as DM.
      rewrite Z0 in DM. rewrite P1.
      replace (M / 2 ^ n * (2 ^ n * 2 ^ (E + 1200))) with (M * 2 ^ (E + 1200)); [exact H|].
      rewrite DM at 1. ring.
    - assert (HM' : 0 < M).
      { destruct (Z.eq_dec M 0) as [Z0|]; [|lia]. rewrite Z0 in NZ.
        rewrite Z.mod_0_l in NZ by lia. contradiction. }
      destruct (quotient_against_bound M E mg eg HM' HE Hc Hmg Heg) as [_ Q].
      specialize (Q H NZ). fold e1 in Q. fold n in Q. nia. }
  rewrite R. destruct (Z.eqb_spec m2 (2 ^ 53)) as [C|C].
  - right. rewrite C in V. destruct (Z.leb_spec (e1 + 1) 971) as [L|L].
    + right. eexists _, _. split; [reflexivity|].
      replace (e1 + 1 + 1200) with (1 + (e1 + 1200)) by lia.
      rewrite (Z.pow_add_r 2 1 (e1 + 1200)) by lia.
      change (Zpos 4503599627370496) with (2 ^ 52).
      change (2 ^ 53) with (2 ^ 52 * 2 ^ 1) in V. lia.
    + left. split; [reflexivity|].
      assert (2 ^ 2224 <= 2 ^ 53 * 2 ^ (e1 + 1200)); [|lia].
      rewrite <- Z.pow_add_r by lia. apply Z.pow_le_mono_r; lia.
  - destruct m2 as [|p|p]; [left; reflexivity| |lia].
    right. destruct (Z.leb_spec e1 971) as [L|L].
    + right. eexists _, _. split; [reflexivity|exact V].
    + left. split; [reflexivity|].
      assert (HM' : 0 < M).
      { destruct (Z.eq_dec M 0) as [Z0|]; [|lia]. exfalso.
        assert (X0 : M mod 2 ^ n = 0) by (rewrite Z0; apply Z.mod_0_l; lia).
        specialize (X X0).
        assert (M / 2 ^ n = 0) by (rewrite Z0; apply Z.div_0_l; lia). lia. }
      pose proof (Zdigits2_bounds M HM') as [DL _].
      assert (Ee : e1 = Zdigits2 M + E - 53) by (unfold e1, fexp64 in *; lia).
      assert (G : 2 ^ 2224 <= 2 ^ (Zdigits2 M - 1) * 2 ^ (E + 1200)).
      { rewrite <- Z.pow_add_r by lia. apply Z.pow_le_mono_r; lia. }
      nia.
Qed.

Lemma magnitude_nonneg (x : spec_float) : 0 <= magnitude x.
Proof.
  destruct x as [| | |s m e]; cbn [magnitude]; lia.
Qed.

(** The magnitude and the sign of a rounded value that did not overflow. *)
Lemma round_magnitude (s : bool) (M E : Z) :
  0 <= M -> -1200 <= E -> E <= fexp64 (Zdigits2 M + E) ->
  finite_or_zero (binary_round_aux prec emax s M E loc_Exact) ->
  sign_of (binary_round_aux prec emax s M E loc_Exact) = s
  /\ forall mg eg : Z,
      0 < mg < 2 ^ 53 -> -1074 <= eg ->
      (mg * 2 ^ (eg + 1200) <= M * 2 ^ (E + 1200) ->
       mg * 2 ^ (eg + 1200) <= magnitude (binary_round_aux prec emax s M E loc_Exact))
      /\ (M * 2 ^ (E + 1200) <= mg * 2 ^ (eg + 1200) ->
          magnitude (binary_round_aux prec emax s M E loc_Exact) <= mg * 2 ^ (eg + 1200)).
Proof.
  intros HM HE Hc Hfz. split.
  - destruct (binary_round_aux_cases s M E HM Hc) as (m2 & B & _ & _ & R).
    rewrite R.
    assert (0 <= M / 2 ^ (fexp64 (Zdigits2 M + E) - E)).
    { apply Z.div_pos; [lia|]. apply Z.pow_pos_nonneg; lia. }
    destruct (m2 =? 2 ^ 53).
    + destruct (_ <=? 971); reflexivity.
    + destruct m2 as [|p|p]; [reflexivity| |lia].
      destruct (_ <=? 971); reflexivity.
  - intros mg eg Hmg Heg.
    assert (Pg : 0 < mg * 2 ^ (eg + 1200)).
    { apply Z.mul_pos_pos; [lia|apply Z.pow_pos_nonneg; lia]. }
    assert (PE : 0 < 2 ^ (E + 1200)) by (apply Z.pow_pos_nonneg; lia).
    split; intros H.
    + assert (HM' : 0 < M) by nia.
      destruct (round_at_or_above s M E mg eg HM' HE Hc Hmg Heg H) as [I|(m & e & I & V)];
        rewrite I in *; [contradiction|exact V].
    + destruct (round_at_or_below s M E mg eg HM HE Hc Hmg Heg H)
        as [I|[[I _]|(m & e & I & V)]]; rewrite I in *;
        [simpl; lia|contradiction|exact V].
Qed.

Lemma same_side_of_magnitude (V : Z) (r : spec_float) (s : bool) (P : Z) :
  0 < P -> V = cond_Zopp s P -> sign_of r = s ->
  (forall mg eg : Z,
      0 < mg < 2 ^ 53 -> -1074 <= eg ->
      (mg * 2 ^ (eg + 1200) <= P -> mg * 2 ^ (eg + 1200) <= magnitude r)
      /\ (P <= mg * 2 ^ (eg + 1200) -> magnitude r <= mg * 2 ^ (eg + 1200))) ->
  same_side V r.
Proof.
  intros HP EV Es Hb. pose proof (magnitude_nonneg r) as Hr.
  unfold same_side, signed_value. rewrite Es.
  split; [|split].
  - intros H. destruct s; simpl in EV; lia.
  - intros H. destruct s; simpl in EV; lia.
  - intros mg eg Hmg Heg. destruct (Hb mg eg Hmg Heg) as [L U].
    assert (Pg : 0 < mg * 2 ^ (eg + 1200)).
    { apply Z.mul_pos_pos; [lia|apply Z.pow_pos_nonneg; lia]. }
    destruct s; simpl in EV; subst V; repeat split; intros H; lia.
Qed.

Lemma same_side_zero (s : bool) : same_side 0 (S754_zero s).
Proof.
  unfold same_side, signed_value. cbn [sign_of magnitude].
  split; [|split].
  - destruct s; lia.
  - destruct s; lia.
  - intros mg eg Hmg Heg.
    assert (Pg : 0 < mg * 2 ^ (eg + 1200)).
    { apply Z.mul_pos_pos; [lia|apply Z.pow_pos_nonneg; lia]. }
    destruct s; repeat split; intros H; lia.
Qed.

(** A number is on the same side of every bound as its own value. *)
Lemma same_side_exact (r : spec_float) : same_side (signed_value r) r.
Proof.
  unfold same_side. split; [|split]; try (intros; assumption).
  intros mg eg _ _. repeat split; intros H; exact H.
Qed.

(** Rounding [+-M * 2^E] without overflow. *)
Lemma round_same_side (s : bool) (M E : Z) :
  0 <= M -> -1200 <= E -> E <= fexp64 (Zdigits2 M + E) ->
  finite_or_zero (binary_round_aux prec emax s M E loc_Exact) ->
  same_side (cond_Zopp s (M * 2 ^ (E + 1200)))
            (binary_round_aux prec emax s M E loc_Exact).
Proof.
  intros HM HE Hc Hfz.
  destruct (Z.eq_dec M 0) as [Z0|NZ].
  - subst M.
    destruct (binary_round_aux_cases s 0 E HM Hc) as (m2 & _ & X & _ & R).
    assert (E0 : m2 = 0).
    { rewrite X; [apply Z.div_0_l|apply Z.mod_0_l]; apply Z.pow_nonzero; lia. }
    rewrite R, E0. cbn [Z.eqb].
    replace (cond_Zopp s (0 * 2 ^ (E + 1200))) with 0 by (destruct s; reflexivity).
    apply same_side_zero.
  - destruct (round_magnitude s M E HM HE Hc Hfz) as [Hs Hb].
    apply (same_side_of_magnitude _ _ s (M * 2 ^ (E + 1200))).
    + apply Z.mul_pos_pos; [lia|apply Z.pow_pos_nonneg; lia].
    + reflexivity.
    + exact Hs.
    + exact Hb.
Qed.

(** *** Sums and halves *)

Lemma Zdigits2_unique (M d : Z) :
  0 < M -> 2 ^ (d - 1) <= M < 2 ^ d -> Zdigits2 M = d.
Proof.
  intros HM [L U]. pose proof (Zdigits2_bounds M HM) as [L' U'].
  assert (Hd : 0 < d).
  { destruct (Z_lt_le_dec 0 d) as [|N]; [assumption|]. exfalso.
    destruct (Z.eq_dec d 0) as [Z0|NZ].
    - subst d. simpl in U. lia.
    - rewrite Z.pow_neg_r in U by lia. lia. }
  assert (Hd' : 0 < Zdigits2 M) by (destruct M; simpl; lia).
  assert (A : 2 ^ (d - 1) < 2 ^ Zdigits2 M) by lia.
  assert (B : 2 ^ (Zdigits2 M - 1) < 2 ^ d) by lia.
  apply Z.pow_lt_mono_r_iff in A; [|lia|lia].
  apply Z.pow_lt_mono_r_iff in B; [|lia|lia].
  lia.
Qed.

Lemma Zdigits2_shift (M k : Z) :
  0 < M -> 0 <= k -> Zdigits2 (M * 2 ^ k) = Zdigits2 M + k.
Proof.
  intros HM Hk. pose proof (Zdigits2_bounds M HM) as [L U].
  assert (Hd : 0 < Zdigits2 M) by (destruct M; simpl; lia).
  assert (Pk : 0 < 2 ^ k) by (apply Z.pow_pos_nonneg; lia).
  apply Zdigits2_unique; [nia|].
  replace (Zdigits2 M + k - 1) with (Zdigits2 M - 1 + k) by lia.
  rewrite !Z.pow_add_r by lia. nia.
Qed.

Lemma iter_xO_shift (m d : positive) : Zpos (Pos.iter xO m d) = Zpos m * 2 ^ Zpos d.
Proof.
  induction d as [|d IH] using Pos.peano_ind.
  - simpl. lia.
  - rewrite Pos.iter_succ, Pos2Z.inj_succ, Z.pow_succ_r by lia.
    rewrite Pos2Z.inj_xO, IH. ring.
Qed.

(** [shl_align] keeps the value and lowers the exponent to the one asked
    for, if that is lower. *)
Lemma shl_align_value (mx : positive) (ex ex' : Z) :
  snd (shl_align mx ex ex') = Z.min ex ex'
  /\ Zpos (fst (shl_align mx ex ex')) = Zpos mx * 2 ^ (ex - Z.min ex ex').
Proof.
  unfold shl_align. destruct (ex' - ex) as [|d|d] eqn:D; cbn [fst snd].
  - replace (Z.min ex ex') with ex by lia. rewrite Z.sub_diag. simpl. lia.
  - replace (Z.min ex ex') with ex by lia. rewrite Z.sub_diag. simpl. lia.
  - replace (Z.min ex ex') with ex' by lia. split; [reflexivity|].
    rewrite iter_xO_shift. f_equal. f_equal. lia.
Qed.

(** The facts behind [valid_binary] for a finite number. *)
Lemma valid_finite_facts (s : bool) (m : positive) (e : Z) :
  valid_binary (S754_finite s m e) = true ->
  -1074 <= e <= 971 /\ 0 < Zpos m < 2 ^ 53 /\ (e = -1074 \/ 2 ^ 52 <= Zpos m).
Proof.
  intros H. simpl in H. unfold bounded, canonical_mantissa in H.
  apply andb_prop in H as [Hc Hb]. apply Z.eqb_eq in Hc. apply Z.leb_le in Hb.
  rewrite fexp_is_fexp64 in Hc. change (emax - prec) with 971 in Hb.
  pose proof (digits2_pos_lower m) as L. pose proof (digits2_pos_upper m) as U.
  set (d := Zpos (digits2_pos m)) in *.
  assert (Hd : 0 < d) by (unfold d; lia).
  unfold fexp64 in Hc.
  assert (D53 : d <= 53) by lia.
  split; [lia|]. split.
  - split; [lia|]. eapply Z.lt_le_trans; [exact U|]. apply Z.pow_le_mono_r; lia.
  - destruct (Z.eq_dec e (-1074)) as [|N]; [left; assumption|right].
    assert (d = 53) by lia. replace 52 with (d - 1) by lia. exact L.
Qed.

Lemma binary_round_same_side (sx : bool) (mx : positive) (ex : Z) :
  -1200 <= ex ->
  finite_or_zero (binary_round prec emax sx mx ex) ->
  same_side (cond_Zopp sx (Zpos mx * 2 ^ (ex + 1200))) (binary_round prec emax sx mx ex).
Proof.
  intros Hex. unfold binary_round. rewrite fexp_is_fexp64.
  set (fe := fexp64 (Zpos (digits2_pos mx) + ex)).
  assert (Hfe : -1074 <= fe) by (unfold fe, fexp64; lia).
  destruct (shl_align_value mx ex fe) as [S1 S2].
  destruct (shl_align mx ex fe) as [mz ez]. cbn [fst snd] in S1, S2.
  assert (Pz : 0 < 2 ^ (ex - Z.min ex fe)) by (apply Z.pow_pos_nonneg; lia).
  assert (Dz : Zdigits2 (Zpos mz) + ez = Zpos (digits2_pos mx) + ex).
  { rewrite S2, Zdigits2_shift by lia. simpl Zdigits2. lia. }
  assert (Vz : Zpos mz * 2 ^ (ez + 1200) = Zpos mx * 2 ^ (ex + 1200)).
  { rewrite S2, <- Z.mul_assoc, <- Z.pow_add_r by lia. do 2 f_equal. lia. }
  intros Hfz. rewrite <- Vz.
  apply round_same_side; try lia; [|exact Hfz].
  rewrite Dz. fold fe. lia.
Qed.

Lemma signed_value_finite (s : bool) (m : positive) (e : Z) :
  signed_value (S754_finite s m e) = cond_Zopp s (Zpos m * 2 ^ (e + 1200)).
Proof. unfold signed_value. cbn [sign_of magnitude]. destruct s; reflexivity. Qed.

Lemma signed_value_zero (s : bool) : signed_value (S754_zero s) = 0.
Proof. unfold signed_value. destruct s; reflexivity. Qed.

(** A sum that does not overflow is on the same side of every bound as the
    exact sum of its operands. *)
Lemma SFadd_same_side (x y : spec_float) :
  valid_binary x = true -> valid_binary y = true ->
  finite_or_zero x -> finite_or_zero y ->
  finite_or_zero (SFadd prec emax x y) ->
  same_side (signed_value x + signed_value y) (SFadd prec emax x y).
Proof.
  intros Vx Vy Fx Fy.
  destruct x as [sx|sx| |sx mx ex]; cbn [finite_or_zero] in Fx; try contradiction;
    destruct y as [sy|sy| |sy my ey]; cbn [finite_or_zero] in Fy; try contradiction.
  - intros _. rewrite !signed_value_zero.
    destruct sx, sy; apply same_side_zero.
  - intros _. rewrite signed_value_zero. cbn [SFadd Z.add]. apply same_side_exact.
  - intros _. rewrite signed_value_zero, Z.add_0_r. cbn [SFadd]. apply same_side_exact.
  - destruct (valid_finite_facts _ _ _ Vx) as (Ex & _ & _).
    destruct (valid_finite_facts _ _ _ Vy) as (Ey & _ & _).
    cbn [SFadd]. cbv zeta.
    set (ez := Z.min ex ey).
    destruct (shl_align_value mx ex ez) as [_ Ax].
    destruct (shl_align_value my ey ez) as [_ Ay].
    replace (Z.min ex ez) with ez in Ax by (unfold ez; lia).
    replace (Z.min ey ez) with ez in Ay by (unfold ez; lia).
    rewrite Ax, Ay, !signed_value_finite.
    assert (Px : 2 ^ (ex + 1200) = 2 ^ (ex - ez) * 2 ^ (ez + 1200)).
    { rewrite <- Z.pow_add_r by (unfold ez; lia). f_equal. lia. }
    assert (Py : 2 ^ (ey + 1200) = 2 ^ (ey - ez) * 2 ^ (ez + 1200)).
    { rewrite <- Z.pow_add_r by (unfold ez; lia). f_equal. lia. }
    set (ax := Zpos mx * 2 ^ (ex - ez)) in *.
    set (ay := Zpos my * 2 ^ (ey - ez)) in *.
    assert (V : cond_Zopp sx (Zpos mx * 2 ^ (ex + 1200))
                + cond_Zopp sy (Zpos my * 2 ^ (ey + 1200))
                = (cond_Zopp sx ax + cond_Zopp sy ay) * 2 ^ (ez + 1200)).
    { rewrite Px, Py. unfold ax, ay. destruct sx, sy; cbn [cond_Zopp]; ring. }
    rewrite V.
    destruct (cond_Zopp sx ax + cond_Zopp sy ay) as [|p|p]; cbn [binary_normalize].
    + intros _. apply same_side_zero.
    + intros Hfz.
      change (Zpos p * 2 ^ (ez + 1200)) with (cond_Zopp false (Zpos p * 2 ^ (ez + 1200))).
      apply binary_round_same_side; [unfold ez; lia|exact Hfz].
    + intros Hfz.
      replace (Zneg p * 2 ^ (ez + 1200)) with (cond_Zopp true (Zpos p * 2 ^ (ez + 1200)))
        by (cbn [cond_Zopp]; rewrite <- Z.mul_opp_l; reflexivity).
      apply binary_round_same_side; [unfold ez; lia|exact Hfz].
Qed.

(** Half of a finite number is finite, and on the same side of every bound as
    the exact half. *)
Lemma SFmul_half_same_side (x : spec_float) :
  valid_binary x = true -> finite_or_zero x ->
  finite_or_zero (SFmul prec emax (S754_finite false 4503599627370496 (-53)) x)
  /\ exists V : Z,
      2 * V = signed_value x
      /\ same_side V (SFmul prec emax (S754_finite false 4503599627370496 (-53)) x).
Proof.
  intros Vx Fx.
  destruct x as [sx|sx| |sx mx ex]; cbn [finite_or_zero] in Fx; try contradiction.
  - cbn [SFmul xorb]. split; [exact I|]. exists 0.
    rewrite signed_value_zero. split; [reflexivity|apply same_side_zero].
  - destruct (valid_finite_facts _ _ _ Vx) as (Ex & Mx & _).
    cbn [SFmul xorb].
    set (M := Zpos (4503599627370496 * mx)).
    assert (EM : M = Zpos mx * 2 ^ 52) by (unfold M; lia).
    assert (HM : 0 < M) by lia.
    assert (Hd : Zdigits2 M = Zpos (digits2_pos mx) + 52).
    { rewrite EM, Zdigits2_shift by lia. reflexivity. }
    assert (Hc : -53 + ex <= fexp64 (Zdigits2 M + (-53 + ex))).
    { rewrite Hd. unfold fexp64. lia. }
    assert (PV : 2 * (M * 2 ^ (-53 + ex + 1200)) = Zpos mx * 2 ^ (ex + 1200)).
    { rewrite EM. replace (ex + 1200) with (1 + 52 + (-53 + ex + 1200)) by lia.
      rewrite (Z.pow_add_r 2 (1 + 52) (-53 + ex + 1200)) by lia.
      change (2 ^ (1 + 52)) with (2 * 2 ^ 52). ring. }
    assert (P0 : 0 < 2 ^ (-53 + ex + 1200)) by (apply Z.pow_pos_nonneg; lia).
    assert (Hfz : finite_or_zero (binary_round_aux prec emax sx M (-53 + ex) loc_Exact)).
    { destruct (round_at_or_below sx M (-53 + ex) (Zpos mx) ex
                  ltac:(lia) ltac:(lia) Hc Mx ltac:(lia) ltac:(nia))
        as [I0|[[_ O]|(m & e & I0 & _)]]; try (rewrite I0; exact I).
      exfalso.
      assert (Zpos mx * 2 ^ (ex + 1200) < 2 ^ 53 * 2 ^ (ex + 1200)).
      { apply Z.mul_lt_mono_pos_r; [apply Z.pow_pos_nonneg; lia|lia]. }
      assert (2 ^ 53 * 2 ^ (ex + 1200) <= 2 ^ 2224).
      { rewrite <- Z.pow_add_r by lia. apply Z.pow_le_mono_r; lia. }
      lia. }
    split; [exact Hfz|].
    exists (cond_Zopp sx (M * 2 ^ (-53 + ex + 1200))). split.
    + rewrite signed_value_finite. destruct sx; cbn [cond_Zopp]; lia.
    + apply round_same_side; try lia. exact Hfz.
Qed.

(** *** Comparisons *)

Lemma magnitude_by_exponent (s1 s2 : bool) (m1 m2 : positive) (e1 e2 : Z) :
  valid_binary (S754_finite s1 m1 e1) = true ->
  valid_binary (S754_finite s2 m2 e2) = true ->
  e1 < e2 -> Zpos m1 * 2 ^ (e1 + 1200) < Zpos m2 * 2 ^ (e2 + 1200).
Proof.
  intros V1 V2 H.
  destruct (valid_finite_facts _ _ _ V1) as (E1 & M1 & _).
  destruct (valid_finite_facts _ _ _ V2) as (E2 & M2 & N2).
  destruct N2 as [N2|N2]; [lia|].
  assert (A : 2 ^ 53 * 2 ^ (e1 + 1200) <= 2 ^ 52 * 2 ^ (e2 + 1200)).
  { rewrite <- !Z.pow_add_r by lia. apply Z.pow_le_mono_r; lia. }
  assert (P1 : 0 < 2 ^ (e1 + 1200)) by (apply Z.pow_pos_nonneg; lia).
  assert (P2 : 0 < 2 ^ (e2 + 1200)) by (apply Z.pow_pos_nonneg; lia).
  nia.
Qed.

Lemma magnitude_compare (s1 s2 : bool) (m1 m2 : positive) (e1 e2 : Z) :
  valid_binary (S754_finite s1 m1 e1) = true ->
  valid_binary (S754_finite s2 m2 e2) = true ->
  match e1 ?= e2 with
  | Lt => Lt
  | Gt => Gt
  | Eq => Pos.compare_cont Eq m1 m2
  end
  = (Zpos m1 * 2 ^ (e1 + 1200) ?= Zpos m2 * 2 ^ (e2 + 1200)).
Proof.
  intros V1 V2. symmetry.
  destruct (Z.compare_spec e1 e2) as [E|L|G].
  - subst e2. destruct (valid_finite_facts _ _ _ V1) as (E1 & _ & _).
    assert (P : 0 < 2 ^ (e1 + 1200)) by (apply Z.pow_pos_nonneg; lia).
    change (Pos.compare_cont Eq m1 m2) with (Zpos m1 ?= Zpos m2).
    destruct (Z.compare_spec (Zpos m1) (Zpos m2)) as [A|A|A].
    + rewrite A. apply Z.compare_refl.
    + apply Z.compare_lt_iff. nia.
    + apply Z.compare_gt_iff. nia.
  - apply Z.compare_lt_iff. apply (magnitude_by_exponent s1 s2); assumption.
  - apply Z.compare_gt_iff. apply (magnitude_by_exponent s2 s1); assumption.
Qed.

(** On finite numbers the comparisons are those of the values. *)
Lemma SFcompare_signed_value (x y : spec_float) :
  valid_binary x = true -> valid_binary y = true ->
  finite_or_zero x -> finite_or_zero y ->
  SFcompare x y = Some (signed_value x ?= signed_value y).
Proof.
  intros Vx Vy Fx Fy.
  { destruct x as [sx|sx| |sx mx ex]; cbn [finite_or_zero] in Fx; try contradiction;
      destruct y as [sy|sy| |sy my ey]; cbn [finite_or_zero] in Fy; try contradiction;
      rewrite ?signed_value_zero, ?signed_value_finite; cbn [SFcompare].
    - reflexivity.
    - f_equal. destruct (valid_finite_facts _ _ _ Vy) as (Ey & My & _).
      assert (0 < Zpos my * 2 ^ (ey + 1200))
        by (apply Z.mul_pos_pos; [lia|apply Z.pow_pos_nonneg; lia]).
      symmetry. destruct sy; cbn [cond_Zopp];
        [apply Z.compare_gt_iff|apply Z.compare_lt_iff]; lia.
    - f_equal. destruct (valid_finite_facts _ _ _ Vx) as (Ex & Mx & _).
      assert (0 < Zpos mx * 2 ^ (ex + 1200))
        by (apply Z.mul_pos_pos; [lia|apply Z.pow_pos_nonneg; lia]).
      symmetry. destruct sx; cbn [cond_Zopp];
        [apply Z.compare_lt_iff|apply Z.compare_gt_iff]; lia.
    - f_equal. destruct (valid_finite_facts _ _ _ Vx) as (Ex & Mx & _).
      destruct (valid_finite_facts _ _ _ Vy) as (Ey & My & _).
      assert (0 < Zpos mx * 2 ^ (ex + 1200))
        by (apply Z.mul_pos_pos; [lia|apply Z.pow_pos_nonneg; lia]).
      assert (0 < Zpos my * 2 ^ (ey + 1200))
        by (apply Z.mul_pos_pos; [lia|apply Z.pow_pos_nonneg; lia]).
      destruct sx, sy; cbn [cond_Zopp].
      + rewrite Z.compare_opp.
        rewrite <- (magnitude_compare true true my mx ey ex Vy Vx).
        rewrite (Z.compare_antisym ex ey), (Pos.compare_cont_antisym mx my Eq).
        destruct (ex ?= ey); reflexivity.
      + symmetry. apply Z.compare_lt_iff. lia.
      + symmetry. apply Z.compare_gt_iff. lia.
      + apply (magnitude_compare false false); assumption. }
Qed.

Lemma SFleb_signed_value (x y : spec_float) :
  valid_binary x = true -> valid_binary y = true ->
  finite_or_zero x -> finite_or_zero y ->
  SFleb x y = (signed_value x <=? signed_value y).
Proof.
  intros Vx Vy Fx Fy. unfold SFleb.
  rewrite (SFcompare_signed_value x y Vx Vy Fx Fy). unfold Z.leb.
  destruct (signed_value x ?= signed_value y); reflexivity.
Qed.

Lemma SFltb_signed_value (x y : spec_float) :
  valid_binary x = true -> valid_binary y = true ->
  finite_or_zero x -> finite_or_zero y ->
  SFltb x y = (signed_value x <? signed_value y).
Proof.
  intros Vx Vy Fx Fy. unfold SFltb.
  rewrite (SFcompare_signed_value x y Vx Vy Fx Fy). unfold Z.ltb.
  destruct (signed_value x ?= signed_value y); reflexivity.
Qed.

(** *** The midpoint of two finite numbers *)

(** For finite [x <= y] whose sum does not overflow, [0.5 * (x + y)] is finite
    and lies between [x] and [y], ends included. *)
Lemma SF_midpoint_between (x y : spec_float) :
  valid_binary x = true -> valid_binary y = true ->
  finite_or_zero x -> finite_or_zero y ->
  signed_value x <= signed_value y ->
  valid_binary (SFadd prec emax x y) = true ->
  finite_or_zero (SFadd prec emax x y) ->
  finite_or_zero (SFmul prec emax (S754_finite false 4503599627370496 (-53))
                        (SFadd prec emax x y))
  /\ signed_value x
     <= signed_value (SFmul prec emax (S754_finite false 4503599627370496 (-53))
                            (SFadd prec emax x y))
     <= signed_value y.
Proof.
  intros Vx Vy Fx Fy Hxy Vs Fs.
  destruct (SFadd_same_side x y Vx Vy Fx Fy Fs) as (S0 & S1 & Sb).
  destruct (SFmul_half_same_side _ Vs Fs) as (Fm & V & EV & M0 & M1 & Mb).
  set (s := SFadd prec emax x y) in *.
  set (mid := SFmul prec emax (S754_finite false 4503599627370496 (-53)) s) in *.
  split; [exact Fm|]. split.
  - destruct x as [sx|sx| |sx mx ex]; cbn [finite_or_zero] in Fx; try contradiction.
    + rewrite signed_value_zero in *. apply M0. lia.
    + destruct (valid_finite_facts _ _ _ Vx) as (Ex & Mx & _).
      rewrite signed_value_finite in *.
      assert (G2 : Zpos mx * 2 ^ (ex + 1 + 1200) = 2 * (Zpos mx * 2 ^ (ex + 1200))).
      { replace (ex + 1 + 1200) with (1 + (ex + 1200)) by lia.
        rewrite (Z.pow_add_r 2 1 (ex + 1200)) by lia. ring. }
      destruct (Sb (Zpos mx) (ex + 1) Mx ltac:(lia)) as (B1 & _ & B3 & _).
      destruct (Mb (Zpos mx) ex Mx ltac:(lia)) as (C1 & _ & C3 & _).
      rewrite G2 in B1, B3.
      destruct sx; cbn [cond_Zopp] in *.
      * apply C3. lia.
      * apply C1. lia.
  - destruct y as [sy|sy| |sy my ey]; cbn [finite_or_zero] in Fy; try contradiction.
    + rewrite signed_value_zero in *. apply M1. lia.
    + destruct (valid_finite_facts _ _ _ Vy) as (Ey & My & _).
      rewrite signed_value_finite in *.
      assert (G2 : Zpos my * 2 ^ (ey + 1 + 1200) = 2 * (Zpos my * 2 ^ (ey + 1200))).
      { replace (ey + 1 + 1200) with (1 + (ey + 1200)) by lia.
        rewrite (Z.pow_add_r 2 1 (ey + 1200)) by lia. ring. }
      destruct (Sb (Zpos my) (ey + 1) My ltac:(lia)) as (_ & B2 & _ & B4).
      destruct (Mb (Zpos my) ey My ltac:(lia)) as (_ & C2 & _ & C4).
      rewrite G2 in B2, B4.
      destruct sy; cbn [cond_Zopp] in *.
      * apply C4. lia.
      * apply C2. lia.
Qed.

End Binary64Nearest.

Section B64Midpoint.
Local Open Scope float_scope.

Lemma leb_signed_value (x y : float) :
  is_finite x = true -> is_finite y = true ->
  (x <=? y) = (signed_value (Prim2SF x) <=? signed_value (Prim2SF y))%Z.
Proof.
  intros Fx Fy. apply is_finite_spec in Fx, Fy. rewrite leb_spec.
  apply SFleb_signed_value; try assumption; apply Prim2SF_valid.
Qed.

Lemma ltb_signed_value (x y : float) :
  is_finite x = true -> is_finite y = true ->
  (x <? y) = (signed_value (Prim2SF x) <? signed_value (Prim2SF y))%Z.
Proof.
  intros Fx Fy. apply is_finite_spec in Fx, Fy. rewrite ltb_spec.
  apply SFltb_signed_value; try assumption; apply Prim2SF_valid.
Qed.

(** For finite doubles [lo <= hi] whose sum does not overflow, the midpoint
    [0.5 * (lo + hi)] is a finite double between [lo] and [hi], ends
    included. *)
Lemma midpoint_between (lo hi : float) :
  is_finite lo = true -> is_finite hi = true -> (lo <=? hi) = true ->
  is_finite (lo + hi) = true ->
  is_finite (0.5 * (lo + hi)) = true
  /\ (lo <=? 0.5 * (lo + hi)) = true
  /\ (0.5 * (lo + hi) <=? hi) = true.
Proof.
  intros Flo Fhi Hle Fs.
  rewrite (leb_signed_value _ _ Flo Fhi) in Hle. apply Z.leb_le in Hle.
  assert (Fm : is_finite (0.5 * (lo + hi)) = true
               /\ (signed_value (Prim2SF lo) <= signed_value (Prim2SF (0.5 * (lo + hi)))
                   <= signed_value (Prim2SF hi))%Z).
  { pose proof Flo as Flo'. pose proof Fhi as Fhi'.
    apply is_finite_spec in Flo', Fhi', Fs.
    pose proof (Prim2SF_valid lo) as Vlo. pose proof (Prim2SF_valid hi) as Vhi.
    pose proof (Prim2SF_valid (lo + hi)) as Vs.
    assert (Em : Prim2SF (0.5 * (lo + hi))
                 = SFmul prec emax (S754_finite false 4503599627370496 (-53))
                         (SFadd prec emax (Prim2SF lo) (Prim2SF hi))).
    { rewrite mul_spec, add_spec. reflexivity. }
    rewrite add_spec in Vs, Fs. unfold SF64add in Vs, Fs.
    destruct (SF_midpoint_between _ _ Vlo Vhi Flo' Fhi' Hle Vs Fs) as (Fm & L & U).
    rewrite <- Em in Fm, L, U.
    split; [apply is_finite_spec; exact Fm|]. split; assumption. }
  destruct Fm as (Fm & L & U).
  split; [exact Fm|].
  rewrite (leb_signed_value _ _ Flo Fm), (leb_signed_value _ _ Fm Fhi).
  split; apply Z.leb_le; assumption.
Qed.

(** When [lo < hi] the midpoint is not both edges at once: it is strictly
    above the low edge or strictly below the high edge. *)
Lemma midpoint_off_one_edge (lo hi : float) :
  is_finite lo = true -> is_finite hi = true -> (lo <? hi) = true ->
  is_finite (lo + hi) = true ->
  is_finite (0.5 * (lo + hi)) = true
  /\ (lo <=? 0.5 * (lo + hi)) = true
  /\ (0.5 * (lo + hi) <=? hi) = true
  /\ ((lo <? 0.5 * (lo + hi)) = true \/ (0.5 * (lo + hi) <? hi) = true).
Proof.
  intros Flo Fhi Hlt Fs.
  assert (Hle : (lo <=? hi) = true).
  { rewrite (leb_signed_value _ _ Flo Fhi). rewrite (ltb_signed_value _ _ Flo Fhi) in Hlt.
    apply Z.leb_le. apply Z.ltb_lt in Hlt. lia. }
  destruct (midpoint_between lo hi Flo Fhi Hle Fs) as (Fm & L & U).
  repeat split; try assumption.
  rewrite (ltb_signed_value _ _ Flo Fhi) in Hlt. apply Z.ltb_lt in Hlt.
  rewrite (ltb_signed_value _ _ Flo Fm), (ltb_signed_value _ _ Fm Fhi).
  destruct (Z.ltb_spec (signed_value (Prim2SF lo))
                       (signed_value (Prim2SF (0.5 * (lo + hi))))) as [A|A];
    [left; reflexivity|right]. apply Z.ltb_lt. lia.
Qed.

Lemma leb_transitive (x y z : float) :
  is_finite x = true -> is_finite y = true -> is_finite z = true ->
  (x <=? y) = true -> (y <=? z) = true -> (x <=? z) = true.
Proof.
  intros Fx Fy Fz. rewrite !leb_signed_value by assumption.
  rewrite !Z.leb_le. lia.
Qed.

End B64Midpoint.
(* ================================================================== *)
(** ** Exact instance: the computation on finite, non-negative counts *)

Section ExactFacts.
Local Open Scope R_scope.
Import Exact.

Lemma bin_term_real (m x : R) :
  0 <= m -> bin_term (Fin m) (Fin x) = Fin (bin_real m x).
Proof.
  intros Hm. unfold bin_term, bin_real. cbn.
  destruct (Req_dec_T m 0) as [E|E]; [reflexivity|].
  destruct (Rlt_dec m 0) as [Hlt|_]; [lra|]. cbn.
  f_equal.
Qed.

Lemma bin_term_real_negative (m x : R) :
  m < 0 -> bin_term (Fin m) (Fin x) = NaN.
Proof.
  intros Hm. unfold bin_term. cbn.
  destruct (Req_dec_T m 0) as [E|E]; [lra|].
  destruct (Rlt_dec m 0) as [_|Hge]; [reflexivity|lra].
Qed.

Lemma zip_bin_term_real (ms xs : list R) :
  Forall (fun m => 0 <= m) ms ->
  zip_with bin_term (map Fin ms) (map Fin xs) = map Fin (zip_with bin_real ms xs).
Proof.
  intros H. revert xs. induction H as [|m ms Hm _ IH]; intros [|x xs]; simpl;
    try reflexivity.
  rewrite bin_term_real by assumption. rewrite IH. reflexivity.
Qed.

Lemma fold_eadd_fin (l : list R) (a : R) :
  fold_left eadd (map Fin l) (Fin a) = Fin (fold_left Rplus l a).
Proof.
  revert a. induction l as [|x l IH]; intros a; simpl; [reflexivity|]. apply IH.
Qed.

Lemma fold_plus_shift (l : list R) (a : R) :
  fold_left Rplus l a = a + real_sum l.
Proof.
  unfold real_sum. revert a. induction l as [|x l IH]; intros a; simpl; [lra|].
  rewrite (IH (a + x)), (IH (0 + x)). lra.
Qed.

Lemma real_sum_cons (x : R) (l : list R) : real_sum (x :: l) = x + real_sum l.
Proof.
  unfold real_sum at 1. simpl. rewrite fold_plus_shift. lra.
Qed.

Lemma real_sum_app (a b : list R) : real_sum (a ++ b) = real_sum a + real_sum b.
Proof.
  induction a as [|x a IH]; simpl.
  - unfold real_sum at 2. simpl. lra.
  - rewrite !real_sum_cons, IH. lra.
Qed.

(** Without rounding the order of the additions does not matter: numpy's
    pairwise sum of finite reals is their sum. *)
Lemma unrolled_sum_fin (a : list R) :
  forall r0 r1 r2 r3 r4 r5 r6 r7 : R,
    unrolled_sum (Fin r0) (Fin r1) (Fin r2) (Fin r3) (Fin r4) (Fin r5) (Fin r6) (Fin r7)
                 (map Fin a)
    = Fin (r0 + r1 + r2 + r3 + r4 + r5 + r6 + r7 + real_sum a).
Proof.
  induction a as [a Hshort|b0 b1 b2 b3 b4 b5 b6 b7 a IH] using list_ind8;
    intros r0 r1 r2 r3 r4 r5 r6 r7.
  - rewrite unrolled_sum_short by (rewrite length_map; exact Hshort).
    cbn [f_add arith eadd]. rewrite fold_eadd_fin, fold_plus_shift. f_equal. lra.
  - cbn [map unrolled_sum f_add arith eadd]. rewrite IH.
    rewrite !real_sum_cons. f_equal. lra.
Qed.

Lemma block_sum_fin (a : list R) : block_sum (map Fin a) = Fin (real_sum a).
Proof.
  destruct (Nat.ltb_spec (length a) 8) as [L|L].
  - rewrite block_sum_short by (rewrite length_map; exact L).
    change (@f_neg_zero ereal arith) with (Fin (- 0)).
    cbn [f_add arith]. rewrite fold_eadd_fin, fold_plus_shift. f_equal. lra.
  - destruct a as [|b0 [|b1 [|b2 [|b3 [|b4 [|b5 [|b6 [|b7 a]]]]]]]];
      try (simpl in L; lia).
    cbn [map block_sum]. rewrite unrolled_sum_fin, !real_sum_cons. f_equal. lra.
Qed.

Lemma pairwise_sum_fin (a : list R) : pairwise_sum (map Fin a) = Fin (real_sum a).
Proof.
  induction a as [a Hshort|a Hlong IH1 IH2] using (pairwise_sum_splits (F := R)).
  - rewrite pairwise_sum_short by (rewrite length_map; exact Hshort).
    apply block_sum_fin.
  - rewrite pairwise_sum_long by (rewrite length_map; exact Hlong).
    rewrite length_map, firstn_map, skipn_map, IH1, IH2.
    cbn [f_add arith eadd]. rewrite <- real_sum_app, firstn_skipn. reflexivity.
Qed.

Lemma np_sum_fin (l : list R) : np_sum (map Fin l) = Fin (real_sum l).
Proof.
  destruct l as [|x l]; [reflexivity|].
  unfold np_sum. cbn [map]. change (Fin x :: map Fin l) with (map Fin (x :: l)).
  rewrite pairwise_sum_fin.
  change (@f_neg_zero ereal arith) with (Fin (- 0)).
  cbn [f_add arith eadd]. f_equal. lra.
Qed.

(** On finite non-negative predictions the log-likelihood is the finite real
    sum of the bins' contributions. *)
Lemma poisson_loglike_real (ms xs : list R) :
  length ms = length xs -> Forall (fun m => 0 <= m) ms ->
  poisson_loglike (map Fin ms) (map Fin xs)
  = Some (Fin (real_sum (zip_with bin_real ms xs))).
Proof.
  intros E H. rewrite poisson_loglike_bins by (rewrite !length_map; exact E).
  rewrite zip_bin_term_real by assumption. rewrite np_sum_fin. reflexivity.
Qed.

Lemma cash_value_fin (r : R) : cash_value (Fin r) = Fin (- r / 2).
Proof.
  unfold cash_value. cbn. destruct (Req_dec_T 2 0) as [E|_]; [lra|reflexivity].
Qed.





Lemma Forall2_same_length (T U : Type) (P : T -> U -> Prop) (a : list T) (b : list U) :
  Forall2 P a b -> length a = length b.
Proof. induction 1; simpl; congruence. Qed.

Lemma Rpower10_pos (x : R) : 0 < Rpower 10 x.
Proof. unfold Rpower. apply exp_pos. Qed.

End ExactFacts.
(* ================================================================== *)
(** ** The methods, run by hand *)

Section Methods.
Context {F : Type} {A : Arith F} {L : Libm F} {Spectrum : Type}.
Variable counts : Spectrum -> list F.
Variable bin_counts : Spectrum -> option (list F * list F * list F * list F).
Variable calculate : Powerlaw F -> list F -> list F -> option (list F).
Variable apply_resp : Spectrum -> list F -> option (list F).

Local Abbreviation Fit := (PowerlawPoissonFit F Spectrum).
Local Abbreviation model_chist_ := (model_chist bin_counts calculate apply_resp).
Local Abbreviation loglikelihood_ := (loglikelihood counts bin_counts calculate apply_resp).
Local Abbreviation cash_ := (cash counts bin_counts calculate apply_resp).
Local Abbreviation cash_each_ := (cash_each counts bin_counts calculate apply_resp).

Lemma model_chist_run (self : Fit) (lognorm pi : F) :
  model_chist_ [lognorm; pi] self
  = match bin_counts (xspec self) with
    | Some (elo, ehi, _, _) =>
        match bin_mid elo ehi with
        | Some _ =>
            match calculate (model (tuned self lognorm pi)) elo ehi with
            | Some mflux =>
                match apply_resp (xspec self) mflux with
                | Some result => Some (result, tuned self lognorm pi)
                | None => None
                end
            | None => None
            end
        | None => None
        end
    | None => None
    end.
Proof.
  unfold model_chist, bind, lift, ret, tuned. simpl.
  destruct (bin_counts (xspec self)) as [[[[elo ehi] cts] err]|]; [|reflexivity].
  destruct (bin_mid elo ehi); [|reflexivity]. simpl.
  destruct (calculate _ elo ehi); [|reflexivity]. simpl.
  destruct (apply_resp (xspec self) _); reflexivity.
Qed.

Lemma model_chist_bad_pars (self : Fit) (pars : list F) :
  length pars <> 2 -> model_chist_ pars self = None.
Proof.
  intros H. unfold model_chist, bind, lift, ret.
  destruct (bin_counts (xspec self)) as [[[[elo ehi] cts] err]|]; [|reflexivity].
  destruct (bin_mid elo ehi); [|reflexivity].
  destruct pars as [|a [|b [|c pars]]]; simpl in *; try reflexivity. congruence.
Qed.

(** [loglikelihood] is [poisson_loglike] applied to what [model_chist]
    predicts and to the observed counts. *)
Lemma loglikelihood_run (self : Fit) (pars : list F) :
  loglikelihood_ pars self
  = match model_chist_ pars self with
    | Some (ymodel, self') =>
        match poisson_loglike ymodel (counts (xspec self')) with
        | Some v => Some (v, self')
        | None => None
        end
    | None => None
    end.
Proof.
  unfold loglikelihood, bind, lift, gets.
  destruct (model_chist_ pars self) as [[ymodel self']|]; reflexivity.
Qed.

(** [mod_residuals] is [residuals] applied to the same two arrays. *)
Lemma mod_residuals_run (self : Fit) (pars : list F) :
  mod_residuals counts bin_counts calculate apply_resp pars self
  = match model_chist_ pars self with
    | Some (mcounts, self') =>
        match residuals mcounts (counts (xspec self')) with
        | Some r => Some (r, self')
        | None => None
        end
    | None => None
    end.
Proof.
  unfold mod_residuals, bind, lift, gets.
  destruct (model_chist_ pars self) as [[mcounts self']|]; reflexivity.
Qed.

(** [cash] is [cash_of] applied to what [model_chist] predicts and to the
    observed counts. *)
Lemma cash_run (self : Fit) (pars : list F) :
  cash_ pars self
  = match model_chist_ pars self with
    | Some (ymodel, self') =>
        match cash_of ymodel (counts (xspec self')) with
        | Some v => Some (v, self')
        | None => None
        end
    | None => None
    end.
Proof.
  unfold cash, loglikelihood, cash_of, bind, lift, gets, ret.
  destruct (model_chist_ pars self) as [[ymodel self']|]; [|reflexivity].
  destruct (poisson_loglike ymodel (counts (xspec self'))); reflexivity.
Qed.

(** What [cash] returns and leaves behind depends on the object only through
    its spectrum. *)
Lemma model_chist_same_spectrum (pars : list F) (s1 s2 : Fit) :
  xspec s1 = xspec s2 -> model_chist_ pars s1 = model_chist_ pars s2.
Proof.
  intros E. destruct pars as [|a [|b [|c pars]]].
  1,2,4: rewrite !model_chist_bad_pars by (simpl; lia); reflexivity.
  rewrite !model_chist_run. unfold tuned. rewrite E. reflexivity.
Qed.

Lemma cash_same_spectrum (pars : list F) (s1 s2 : Fit) :
  xspec s1 = xspec s2 -> cash_ pars s1 = cash_ pars s2.
Proof.
  intros E. rewrite !cash_run, (model_chist_same_spectrum pars s1 s2 E).
  reflexivity.
Qed.

Lemma cash_keeps_spectrum (pars : list F) (s s' : Fit) (v : F) :
  cash_ pars s = Some (v, s') -> xspec s' = xspec s.
Proof.
  rewrite cash_run. destruct pars as [|a [|b [|c pars]]].
  1,2,4: rewrite model_chist_bad_pars by (simpl; lia); discriminate.
  rewrite model_chist_run.
  destruct (bin_counts (xspec s)) as [[[[elo ehi] cts] err]|]; [|discriminate].
  destruct (bin_mid elo ehi); [|discriminate].
  destruct (calculate _ elo ehi); [|discriminate].
  destruct (apply_resp (xspec s) _); [|discriminate].
  destruct (cash_of _ _); [|discriminate].
  intros H. injection H as _ H. subst s'. reflexivity.
Qed.

Lemma cash_each_keeps_spectrum (history : list (list F)) (s s' : Fit) (vs : list F) :
  cash_each_ history s = Some (vs, s') -> xspec s' = xspec s.
Proof.
  revert s vs. induction history as [|pars rest IH]; intros s vs; simpl.
  - unfold ret. intros H. injection H as _ H. subst s'. reflexivity.
  - unfold bind at 1. destruct (cash_ pars s) as [[v s1]|] eqn:E1; [|discriminate].
    unfold bind at 1. destruct (cash_each_ rest s1) as [[vs1 s2]|] eqn:E2; [|discriminate].
    unfold ret. intros H. injection H as _ H. subst s'.
    rewrite (IH _ _ E2). exact (cash_keeps_spectrum _ _ _ _ E1).
Qed.

End Methods.

(* ================================================================== *)
(** * The claims *)

(** ** C1: the Cash statistic and the log-likelihood *)

(** C1.  The spec has the fit objective equal to [-2] times the
    log-likelihood, as does the notebook's own text ("C = -2 ln L").  [cash]
    returns [-result/2.0].  With predicted counts [[1.0]] and observed counts
    [[0.0]] the log-likelihood is [-1], the objective returned is [0.5], and
    [-2] times the log-likelihood is [2]. *)
Theorem C1_cash_halves_where_spec_doubles (libm_log libm_pow10 : float -> float) :
  let L := B64.libm libm_log libm_pow10 in
  poisson_loglike [1%float] [0%float] = Some (-1)%float
  /\ cash_of [1%float] [0%float] = Some 0.5%float
  /\ option_map (fun l => (-2 * l)%float) (poisson_loglike [1%float] [0%float])
     = Some 2%float.
Proof.
  intros L. repeat split; vm_compute; reflexivity.
Qed.

(** In exact arithmetic the two agree only where the log-likelihood is zero. *)
Lemma cash_value_is_minus_twice_only_at_zero (r : R) :
  cash_value (Exact.Fin r) = Exact.Fin (-2 * r) <-> r = 0%R.
Proof.
  rewrite cash_value_fin. split.
  - intros H. injection H as H. lra.
  - intros H. f_equal. lra.
Qed.

(** ** C2: the residuals *)

(** The spec's example: with errors [sqrt(max(counts, 1))] the residuals of
    predicted [[1,4,6]] against observed [[0,4,9]] would be [[1, 0, -1]].
    [mod_residuals] takes [sqrt(counts)] without a floor and skips the bins
    whose error is zero, so the empty first bin keeps the [0.0] of [np.zeros]:
    the code returns [[0, 0, -1]]. *)
Lemma C2_floored_example_fails :
  residuals [1; 4; 6]%float [0; 4; 9]%float = Some [0; 0; -1]%float
  /\ Claimed.floored_residuals [1; 4; 6]%float [0; 4; 9]%float = [1; 0; -1]%float
  /\ residuals [1; 4; 6]%float [0; 4; 9]%float
     <> Some (Claimed.floored_residuals [1; 4; 6]%float [0; 4; 9]%float).
Proof.
  repeat split; try (vm_compute; reflexivity).
  intros H.
  apply (f_equal (fun r => match r with
                           | Some (x :: _) => PrimFloat.eqb x 0
                           | _ => false
                           end)) in H.
  vm_compute in H. discriminate H.
Qed.

(** C2, as the code has it.  For predicted and observed counts of the same
    length, [mod_residuals] returns, bin by bin,
    [(predicted - observed) / sqrt(observed)] where [sqrt(observed) != 0] and
    [0.0] where [sqrt(observed)] is zero: the error is not floored, the bins
    with zero error are left out of the division.  This holds for either
    arithmetic. *)
Theorem C2_residuals_skip_zero_error_bins
  (F : Type) (A : Arith F) (mcounts cts : list F) :
  length mcounts = length cts ->
  residuals mcounts cts = Some (zip_with residual_term mcounts cts).
Proof.
  intros E. unfold residuals.
  set (p := fun e : F => f_neq e f_zero).
  assert (Ec : length cts = length (map p (map f_sqrt cts)))
    by (rewrite !length_map; auto).
  assert (Em : length mcounts = length (map p (map f_sqrt cts)))
    by (rewrite !length_map; auto).
  assert (Ee : length (map f_sqrt cts) = length (map p (map f_sqrt cts)))
    by (rewrite !length_map; auto).
  rewrite (mask_get_same_length _ _ Em), (mask_get_same_length _ _ Ec). cbn [obind].
  rewrite elementwise_same_length by (rewrite !take_mask_length by assumption; reflexivity).
  cbn [obind]. rewrite (mask_get_same_length _ _ Ee). cbn [obind].
  rewrite elementwise_same_length
    by (rewrite zip_with_length; rewrite !take_mask_length by assumption; reflexivity).
  cbn [obind]. rewrite take_mask_map, zip_div_sub_sqrt.
  unfold mask_set.
  replace (length (np_zeros (length cts)) =? length (map p (map f_sqrt cts))) with true
    by (unfold np_zeros; rewrite repeat_length, !length_map, Nat.eqb_refl; reflexivity).
  rewrite zip_with_length by (rewrite !take_mask_length by assumption; reflexivity).
  rewrite take_mask_length, Nat.eqb_refl by assumption. cbn [andb].
  rewrite map_map.
  replace (length cts) with (length (map (fun c => p (f_sqrt c)) cts))
    by (rewrite length_map; reflexivity).
  rewrite (put_take_zip (fun m c => f_div (f_sub m c) (f_sqrt c))
             (fun c => p (f_sqrt c)) mcounts cts) by assumption.
  reflexivity.
Qed.

Lemma C2_residuals_witness :
  residuals [1; 4; 6]%float [0; 4; 9]%float
  = Some (zip_with residual_term [1; 4; 6]%float [0; 4; 9]%float).
Proof.
  apply (C2_residuals_skip_zero_error_bins float B64.arith
           [1; 4; 6]%float [0; 4; 9]%float).
  reflexivity.
Defined.

(** ** C3: the objective is never NaN, but it can be infinite *)

(** When a predicted count is NaN the log-likelihood is replaced by [-inf]
    and the objective handed to the minimizer is [+inf], whatever libm
    computes: not a finite value. *)
Lemma C3_objective_can_be_infinite :
  (forall libm_log libm_pow10 : float -> float,
      cash_of (L := B64.libm libm_log libm_pow10) [nan] [1%float] = Some infinity)
  /\ is_finite infinity = false.
Proof.
  split; [intros; vm_compute; reflexivity | reflexivity].
Qed.

(** Whatever was predicted and observed, as long as the two histograms have
    the same length: the statistic is finite when the accumulated sum is, and
    [+inf] when it is not. *)
Lemma cash_of_finite_or_inf
  (libm_log libm_pow10 : float -> float) (ymodel ydata : list float) :
  let L := B64.libm libm_log libm_pow10 in
  length ymodel = length ydata ->
  exists v : float,
    cash_of ymodel ydata = Some v
    /\ is_nan v = false
    /\ (is_finite (nonzero_bins_sum ymodel ydata) = false -> v = infinity)
    /\ (is_finite (nonzero_bins_sum ymodel ydata) = true ->
        v = (- nonzero_bins_sum ymodel ydata / 2)%float /\ is_finite v = true).
Proof.
  intros L E. unfold cash_of. rewrite poisson_loglike_bins by assumption.
  cbn [option_map]. eexists. split; [reflexivity|].
  fold (nonzero_bins_sum ymodel ydata).
  unfold finite_or_neg_inf. cbn [f_isfinite B64.arith].
  destruct (is_finite (nonzero_bins_sum ymodel ydata)) eqn:Hfin.
  - pose proof (half_opp_finite _ Hfin) as Hv.
    split; [apply is_finite_not_nan; exact Hv|].
    split; [discriminate|]. intros _. split; [reflexivity|exact Hv].
  - split; [reflexivity|]. split; [reflexivity|discriminate].
Qed.

(** C3, as the code has it.  For every parameter vector on which
    [model_chist] returns a histogram of the length of the observed counts,
    [cash] returns a value, and the value is never NaN.  It need not be finite:
    when the accumulated sum is not finite the log-likelihood is replaced by
    [-inf] and the minimizer receives [+inf]; otherwise it receives minus half
    the accumulated sum, which is finite. *)
Theorem C3_objective_is_never_nan
  (libm_log libm_pow10 : float -> float) (Spectrum : Type)
  (counts : Spectrum -> list float)
  (bin_counts : Spectrum -> option (list float * list float * list float * list float))
  (calculate : Powerlaw float -> list float -> list float -> option (list float))
  (apply_resp : Spectrum -> list float -> option (list float))
  (pars ymodel : list float) (self self' : PowerlawPoissonFit float Spectrum) :
  let L := B64.libm libm_log libm_pow10 in
  model_chist bin_counts calculate apply_resp pars self = Some (ymodel, self') ->
  length ymodel = length (counts (xspec self')) ->
  exists v : float,
    cash counts bin_counts calculate apply_resp pars self = Some (v, self')
    /\ is_nan v = false
    /\ (is_finite (nonzero_bins_sum ymodel (counts (xspec self'))) = false ->
        v = infinity)
    /\ (is_finite (nonzero_bins_sum ymodel (counts (xspec self'))) = true ->
        v = (- nonzero_bins_sum ymodel (counts (xspec self')) / 2)%float
        /\ is_finite v = true).
Proof.
  intros L Hrun E. subst L.
  destruct (cash_of_finite_or_inf libm_log libm_pow10 ymodel (counts (xspec self')) E)
    as (v & Hv & Hrest).
  exists v. split; [|exact Hrest].
  rewrite cash_run, Hrun, Hv. reflexivity.
Qed.

Lemma C3_objective_witness :
  let L := B64.libm (fun x => x) (fun x => x) in
  let counts := fun s : list float => s in
  let bin_counts := fun s : list float => Some ([1%float], [2%float], s, s) in
  let calculate := fun (m : Powerlaw float) (elo ehi : list float) => Some [norm m] in
  let apply_resp := fun (s mflux : list float) => Some mflux in
  let self := {| xspec := [1%float]; model := {| norm := 1%float; phoindex := 2%float |} |} in
  let self' := {| xspec := [1%float]; model := {| norm := nan; phoindex := 2%float |} |} in
  exists v : float,
    cash counts bin_counts calculate apply_resp [nan; 2%float] self = Some (v, self')
    /\ is_nan v = false
    /\ (is_finite (nonzero_bins_sum [nan] (counts (xspec self'))) = false -> v = infinity)
    /\ (is_finite (nonzero_bins_sum [nan] (counts (xspec self'))) = true ->
        v = (- nonzero_bins_sum [nan] (counts (xspec self')) / 2)%float
        /\ is_finite v = true).
Proof.
  intros L counts bin_counts calculate apply_resp self self'.
  apply (C3_objective_is_never_nan (fun x => x) (fun x => x) (list float)
           counts bin_counts calculate apply_resp [nan; 2%float] [nan] self self').
  - reflexivity.
  - reflexivity.
Defined.

(** ** C4: which bins enter the log-likelihood *)

Lemma nonneg_bin_term (libm_log libm_pow10 : float -> float) (m x : float) :
  (0 <=? m)%float = true ->
  bin_term (L := B64.libm libm_log libm_pow10) m x
  = (if 0 <? m then x * B64.np_log libm_log m - m else 0)%float.
Proof.
  intros H. unfold bin_term. cbn. rewrite (nonneg_neq_zero _ H). reflexivity.
Qed.

Lemma nonneg_bins_sum (libm_log libm_pow10 : float -> float) (ymodel ydata : list float) :
  Forall (fun m => (0 <=? m)%float = true) ymodel ->
  nonzero_bins_sum (L := B64.libm libm_log libm_pow10) ymodel ydata
  = Claimed.positive_bins_sum libm_log ymodel ydata.
Proof.
  intros H. unfold nonzero_bins_sum, Claimed.positive_bins_sum. f_equal.
  revert ydata. induction H as [|m ym Hm _ IH]; intros [|x yd]; simpl; try reflexivity.
  rewrite (nonneg_bin_term _ _ _ _ Hm), IH. reflexivity.
Qed.

(** A negative predicted count is not left out by [ymodel != 0.0]: for
    predicted [[-1.0]] and observed [[0.0]] the sum over the bins with [m > 0]
    is empty, [0], while the code takes the logarithm of [-1], gets NaN and
    returns [-inf]. *)
Lemma C4_negative_bin_is_summed :
  (forall libm_log libm_pow10 : float -> float,
      poisson_loglike (L := B64.libm libm_log libm_pow10) [(-1)%float] [0%float]
      = Some neg_infinity)
  /\ (forall libm_log : float -> float,
         Claimed.positive_bins_sum libm_log [(-1)%float] [0%float] = 0%float)
  /\ PrimFloat.eqb neg_infinity 0 = false.
Proof.
  repeat split; intros; vm_compute; reflexivity.
Qed.

(** C4, as the code has it.  For predicted and observed counts of the same
    length, [loglikelihood] returns the sum of [x_i * ln(m_i) - m_i] over the
    bins with [m_i != 0], every bin with [m_i == 0] contributing [0], when that
    sum is finite, and [-inf] when it is not.  When no predicted count is
    negative or NaN the bins summed are exactly those with [m_i > 0]. *)
Theorem C4_loglike_sums_nonzero_bins
  (libm_log libm_pow10 : float -> float) (ymodel ydata : list float) :
  let L := B64.libm libm_log libm_pow10 in
  length ymodel = length ydata ->
  poisson_loglike ymodel ydata
  = Some (finite_or_neg_inf (nonzero_bins_sum ymodel ydata))
  /\ (Forall (fun m => (0 <=? m)%float = true) ymodel ->
      nonzero_bins_sum ymodel ydata = Claimed.positive_bins_sum libm_log ymodel ydata).
Proof.
  intros L E. split.
  - apply poisson_loglike_bins. exact E.
  - apply nonneg_bins_sum.
Qed.

Lemma C4_loglike_witness :
  poisson_loglike (L := B64.libm (fun x => x) (fun x => x)) [1; 0]%float [3; 5]%float
  = Some (finite_or_neg_inf
            (nonzero_bins_sum (L := B64.libm (fun x => x) (fun x => x))
               [1; 0]%float [3; 5]%float))
  /\ (Forall (fun m => (0 <=? m)%float = true) [1; 0]%float ->
      nonzero_bins_sum (L := B64.libm (fun x => x) (fun x => x)) [1; 0]%float [3; 5]%float
      = Claimed.positive_bins_sum (fun x => x) [1; 0]%float [3; 5]%float).
Proof.
  apply (C4_loglike_sums_nonzero_bins (fun x => x) (fun x => x)
           [1; 0]%float [3; 5]%float).
  reflexivity.
Defined.

(** ** C5: when the log-likelihood is [-inf] and when it is finite *)

Lemma huge_bin_term (libm_log libm_pow10 : float -> float) :
  let L := B64.libm libm_log libm_pow10 in
  bin_term 1e308%float 0%float = (-1e308)%float \/ bin_term 1e308%float 0%float = nan.
Proof.
  intros L. unfold bin_term. cbn.
  change (B64.np_log libm_log 1e308) with (libm_log 1e308%float).
  destruct (mul_zero_cases (libm_log 1e308%float)) as [H|[H|H]]; rewrite H;
    [left|left|right]; reflexivity.
Qed.

(** Two bins predicted at [1e308] with nothing observed: each contributes
    [-1e308] (or NaN, should libm's logarithm misbehave), the sum overflows,
    and [loglikelihood] returns [-inf] although every predicted count is
    finite and positive and every observed count is finite and non-negative. *)
Lemma C5_finite_counts_can_overflow :
  (forall libm_log libm_pow10 : float -> float,
      poisson_loglike (L := B64.libm libm_log libm_pow10)
        [1e308; 1e308]%float [0; 0]%float = Some neg_infinity)
  /\ is_finite neg_infinity = false
  /\ (is_finite 1e308 && (0 <? 1e308)%float) = true
  /\ (is_finite 0 && (0 <=? 0)%float) = true.
Proof.
  split; [|repeat split; reflexivity].
  intros lg pw. rewrite poisson_loglike_bins by reflexivity.
  unfold np_sum, zip_with, fold_left.
  destruct (huge_bin_term lg pw) as [H|H]; cbv zeta in H; rewrite H;
    vm_compute; reflexivity.
Qed.

Lemma finite_or_neg_inf_finite (s : float) :
  is_finite (finite_or_neg_inf s) = is_finite s.
Proof.
  unfold finite_or_neg_inf. cbn. destruct (is_finite s) eqn:E; [exact E|reflexivity].
Qed.

(** C5, as the code has it.  [loglikelihood] returns [-inf] whenever some
    predicted count is NaN, and in general returns [-inf] when the accumulated
    sum is not finite and a finite value exactly when it is.  In exact
    arithmetic the sum is finite whenever the predicted counts are finite and
    non-negative and the observed counts are finite; in binary64 the products
    and the sum can overflow. *)
Theorem C5_nan_gives_neg_inf_and_finite_counts_a_finite_sum :
  (forall (libm_log libm_pow10 : float -> float) (ymodel ydata : list float),
      length ymodel = length ydata -> In nan ymodel ->
      poisson_loglike (L := B64.libm libm_log libm_pow10) ymodel ydata
      = Some neg_infinity)
  /\ (forall (libm_log libm_pow10 : float -> float) (ymodel ydata : list float),
         length ymodel = length ydata ->
         exists v : float,
           poisson_loglike (L := B64.libm libm_log libm_pow10) ymodel ydata = Some v
           /\ is_finite v
              = is_finite (nonzero_bins_sum (L := B64.libm libm_log libm_pow10)
                             ymodel ydata)
           /\ (is_finite (nonzero_bins_sum (L := B64.libm libm_log libm_pow10)
                            ymodel ydata) = false -> v = neg_infinity))
  /\ (forall predicted observed : list R,
         length predicted = length observed ->
         Forall (fun m => (0 <= m)%R) predicted ->
         poisson_loglike (map Exact.Fin predicted) (map Exact.Fin observed)
         = Some (Exact.Fin (real_sum (zip_with bin_real predicted observed)))).
Proof.
  split; [|split].
  - intros lg pw ymodel ydata E H.
    apply (poisoned_bin_gives_neg_inf lg pw nan); try assumption.
    apply bin_term_nan.
  - intros lg pw ymodel ydata E. rewrite poisson_loglike_bins by assumption.
    eexists. split; [reflexivity|]. split; [apply finite_or_neg_inf_finite|].
    intros H. fold (nonzero_bins_sum (L := B64.libm lg pw) ymodel ydata).
    unfold finite_or_neg_inf. cbn. rewrite H. reflexivity.
  - apply poisson_loglike_real.
Qed.

Lemma C5_witness :
  poisson_loglike (L := B64.libm (fun x => x) (fun x => x)) [2; nan]%float [1; 4]%float
  = Some neg_infinity
  /\ poisson_loglike (map Exact.Fin [0; 2]%R) (map Exact.Fin [1; 1]%R)
     = Some (Exact.Fin (real_sum (zip_with bin_real [0; 2]%R [1; 1]%R))).
Proof.
  split.
  - apply (proj1 C5_nan_gives_neg_inf_and_finite_counts_a_finite_sum
             (fun x => x) (fun x => x) [2; nan]%float [1; 4]%float).
    + reflexivity.
    + right. left. reflexivity.
  - apply (proj2 (proj2 C5_nan_gives_neg_inf_and_finite_counts_a_finite_sum)
             [0; 2]%R [1; 1]%R).
    + reflexivity.
    + repeat constructor; lra.
Defined.

(** ** C6: the statistic at the observed counts against a perturbed prediction *)

Section ExactMinimum.
Local Open Scope R_scope.
Import Exact.


(** The same two evaluations in binary64, with libm's value of [ln 2]. *)
Lemma zero_bin_beats_the_observed_counts_binary64 (libm_pow10 : float -> float) :
  let L := B64.libm (fun _ => 0.6931471805599453%float) libm_pow10 in
  cash_of [1; 1]%float [1; 1]%float = Some 1%float
  /\ cash_of [0; 2]%float [1; 1]%float = Some 0.6534264097200273%float.
Proof.
  intros L. split; vm_compute; reflexivity.
Qed.




End ExactMinimum.

(** ** C7: the objective does not depend on earlier evaluations *)

(** C7.  Two objects that hold the same spectrum, whatever their model
    parameters, give the same result on the same parameter vector: the same
    value or the same failure, and the same object afterwards.  In particular
    the value of [cash] on a vector is the same after any sequence of earlier
    evaluations as before it.  ([bin_counts], [calculate] and [apply_resp] are
    taken to be functions of their arguments; the model holds [norm] and
    [phoindex] only.) *)
Theorem C7_cash_forgets_earlier_evaluations
  (F : Type) (A : Arith F) (L : Libm F) (Spectrum : Type)
  (counts : Spectrum -> list F)
  (bin_counts : Spectrum -> option (list F * list F * list F * list F))
  (calculate : Powerlaw F -> list F -> list F -> option (list F))
  (apply_resp : Spectrum -> list F -> option (list F))
  (pars : list F) (s1 s2 : PowerlawPoissonFit F Spectrum) :
  xspec s1 = xspec s2 ->
  cash counts bin_counts calculate apply_resp pars s1
  = cash counts bin_counts calculate apply_resp pars s2
  /\ forall (history : list (list F)) (vs : list F) (s' : PowerlawPoissonFit F Spectrum),
      cash_each counts bin_counts calculate apply_resp history s1 = Some (vs, s') ->
      cash counts bin_counts calculate apply_resp pars s'
      = cash counts bin_counts calculate apply_resp pars s2.
Proof.
  intros E. split.
  - apply cash_same_spectrum. exact E.
  - intros history vs s' H. apply cash_same_spectrum.
    rewrite (cash_each_keeps_spectrum _ _ _ _ _ _ _ _ H). exact E.
Qed.

Lemma C7_cash_witness :
  let L := B64.libm (fun x => x) (fun x => x) in
  let counts := fun s : list float => s in
  let bin_counts := fun s : list float => Some ([1%float], [2%float], s, s) in
  let calculate := fun (m : Powerlaw float) (elo ehi : list float) => Some [norm m] in
  let apply_resp := fun (s mflux : list float) => Some mflux in
  let s1 := {| xspec := [3%float]; model := {| norm := 1%float; phoindex := 2%float |} |} in
  let s2 := {| xspec := [3%float]; model := {| norm := 5%float; phoindex := 7%float |} |} in
  cash counts bin_counts calculate apply_resp [4; 2]%float s1
  = cash counts bin_counts calculate apply_resp [4; 2]%float s2
  /\ forall (history : list (list float)) (vs : list float)
            (s' : PowerlawPoissonFit float (list float)),
      cash_each counts bin_counts calculate apply_resp history s1 = Some (vs, s') ->
      cash counts bin_counts calculate apply_resp [4; 2]%float s'
      = cash counts bin_counts calculate apply_resp [4; 2]%float s2.
Proof.
  intros L counts bin_counts calculate apply_resp s1 s2.
  apply (C7_cash_forgets_earlier_evaluations float B64.arith L (list float)
           counts bin_counts calculate apply_resp [4; 2]%float s1 s2).
  reflexivity.
Defined.


(** ** C8: the bin midpoints *)

Section Midpoints.
Import Exact.

(** In binary64 the strict inequality is lost in two ways.  The midpoint of
    two adjacent doubles is rounded onto an edge: with [low = 1.0] and
    [high = 1.0000000000000002] the sum rounds to [2.0] and the midpoint is
    [1.0], the low edge itself.  And the sum of two large edges overflows:
    with [low = 1e308] and [high = 1.5e308] the midpoint is [+inf], above the
    high edge. *)
Lemma C8_midpoint_of_adjacent_doubles :
  bin_mid [1%float] [1.0000000000000002%float] = Some [1%float]
  /\ PrimFloat.ltb 1 1.0000000000000002 = true
  /\ PrimFloat.ltb 1 1 = false
  /\ bin_mid [1e308%float] [1.5e308%float] = Some [infinity]
  /\ PrimFloat.ltb 1e308 1.5e308 = true
  /\ PrimFloat.leb infinity 1.5e308 = false.
Proof.
  repeat split; vm_compute; reflexivity.
Qed.

Lemma bin_mid_same_length (F : Type) (A : Arith F) (elo ehi : list F) :
  length elo = length ehi ->
  bin_mid elo ehi = Some (zip_with (fun l h => f_mul f_half (f_add l h)) elo ehi).
Proof.
  intros E. unfold bin_mid. rewrite elementwise_same_length by assumption.
  cbn [option_map]. f_equal. revert ehi E.
  induction elo as [|l elo IH]; intros [|h ehi] E; simpl in *; try discriminate.
  - reflexivity.
  - injection E as E. rewrite IH by assumption. reflexivity.
Qed.

(** The midpoints of finite binary64 edges with [low_i < high_i] and no
    overflow in [low_i + high_i]. *)
Lemma midpoints_binary64 (elo ehi : list float) :
  Forall2 (fun l h => is_finite l = true /\ is_finite h = true
                      /\ PrimFloat.ltb l h = true
                      /\ is_finite (l + h)%float = true) elo ehi ->
  Forall (fun m => is_finite m = true)
         (zip_with (fun l h => (0.5 * (l + h))%float) elo ehi)
  /\ Forall2 (fun l m => PrimFloat.leb l m = true) elo
             (zip_with (fun l h => (0.5 * (l + h))%float) elo ehi)
  /\ Forall2 (fun m h => PrimFloat.leb m h = true)
             (zip_with (fun l h => (0.5 * (l + h))%float) elo ehi) ehi
  /\ Forall2 (fun l h => PrimFloat.ltb l (0.5 * (l + h))%float = true
                         \/ PrimFloat.ltb (0.5 * (l + h))%float h = true) elo ehi.
Proof.
  induction 1 as [|l h elo ehi (Fl & Fh & Hlt & Fs) _ (I1 & I2 & I3 & I4)]; simpl.
  - repeat split; constructor.
  - destruct (midpoint_off_one_edge l h Fl Fh Hlt Fs) as (Fm & L & U & S).
    repeat split; constructor; assumption.
Qed.

(** C8, as the code has it.  For finite binary64 edges with [low_i < high_i]
    in every bin and no overflow in [low_i + high_i], [0.5 * (elo + ehi)]
    returns one finite midpoint per bin, each [0.5 * (low_i + high_i)], with
    [low_i <= mid_i <= high_i]; a midpoint can be rounded onto one edge but
    never onto both: it is strictly above [low_i] or strictly below [high_i].
    In exact arithmetic, for edges with [low_i < high_i], each midpoint lies
    strictly between [low_i] and [high_i]. *)
Theorem C8_midpoints_lie_between_the_edges :
  (forall elo ehi : list float,
      Forall2 (fun l h => is_finite l = true /\ is_finite h = true
                          /\ PrimFloat.ltb l h = true
                          /\ is_finite (l + h)%float = true) elo ehi ->
      exists mids : list float,
        bin_mid elo ehi = Some mids
        /\ mids = zip_with (fun l h => (0.5 * (l + h))%float) elo ehi
        /\ Forall (fun m => is_finite m = true) mids
        /\ Forall2 (fun l m => PrimFloat.leb l m = true) elo mids
        /\ Forall2 (fun m h => PrimFloat.leb m h = true) mids ehi
        /\ Forall2 (fun l h => PrimFloat.ltb l (0.5 * (l + h))%float = true
                               \/ PrimFloat.ltb (0.5 * (l + h))%float h = true) elo ehi)
  /\ (forall low high : list R,
         Forall2 Rlt low high ->
         exists mids : list R,
           bin_mid (map Fin low) (map Fin high) = Some (map Fin mids)
           /\ mids = zip_with (fun l h => (1 / 2 * (l + h))%R) low high
           /\ Forall2 Rlt low mids
           /\ Forall2 Rlt mids high).
Proof.
  split.
  - intros elo ehi H. eexists. split; [|split; [reflexivity|]].
    + apply (bin_mid_same_length float B64.arith).
      exact (Forall2_same_length _ _ _ _ _ H).
    + apply midpoints_binary64. exact H.
  - intros low high H. exists (zip_with (fun l h => (1 / 2 * (l + h))%R) low high).
    split; [|split; [reflexivity|]].
    + rewrite bin_mid_same_length
        by (rewrite !length_map; exact (Forall2_same_length _ _ _ _ _ H)).
      f_equal. clear H. revert high.
      induction low as [|l low IH]; intros [|h high]; simpl; try reflexivity.
      rewrite IH. reflexivity.
    + induction H as [|l h low high Hlh _ [IH1 IH2]]; simpl; split; constructor;
        try assumption; lra.
Qed.

Lemma C8_midpoints_witness :
  (exists mids : list float,
      bin_mid [1; 2]%float [1.0000000000000002; 4]%float = Some mids
      /\ mids = zip_with (fun l h => (0.5 * (l + h))%float)
                         [1; 2]%float [1.0000000000000002; 4]%float
      /\ Forall (fun m => is_finite m = true) mids
      /\ Forall2 (fun l m => PrimFloat.leb l m = true) [1; 2]%float mids
      /\ Forall2 (fun m h => PrimFloat.leb m h = true) mids
                 [1.0000000000000002; 4]%float
      /\ Forall2 (fun l h => PrimFloat.ltb l (0.5 * (l + h))%float = true
                             \/ PrimFloat.ltb (0.5 * (l + h))%float h = true)
                 [1; 2]%float [1.0000000000000002; 4]%float)
  /\ exists mids : list R,
      bin_mid (map Fin [1; 2]%R) (map Fin [2; 4]%R) = Some (map Fin mids)
      /\ mids = zip_with (fun l h => (1 / 2 * (l + h))%R) [1; 2]%R [2; 4]%R
      /\ Forall2 Rlt [1; 2]%R mids
      /\ Forall2 Rlt mids [2; 4]%R.
Proof.
  split.
  - apply (proj1 C8_midpoints_lie_between_the_edges
             [1; 2]%float [1.0000000000000002; 4]%float).
    repeat constructor.
  - apply (proj2 C8_midpoints_lie_between_the_edges [1; 2]%R [2; 4]%R).
    repeat constructor; lra.
Defined.

End Midpoints.
(** ** C9: the amplitude set from the parameter vector *)

(** libm's [pow] returns [0.0] at [(10.0, -400.0)]: [10^-400] lies below half
    the smallest subnormal double.  With that value of libm's, the amplitude
    set from the finite [lognorm = -400] is [0.0], which is not strictly
    positive. *)
Lemma C9_amplitude_underflows_to_zero :
  (forall libm_log libm_pow10 : float -> float,
      libm_pow10 (-400)%float = 0%float ->
      forall (self : PowerlawPoissonFit float unit) (pi : float),
        set_model_pars (L := B64.libm libm_log libm_pow10) [(-400)%float; pi] self
        = Some (tt, {| xspec := xspec self;
                       model := {| norm := 0%float; phoindex := pi |} |}))
  /\ is_finite (-400)%float = true
  /\ PrimFloat.ltb 0 0 = false.
Proof.
  split; [|split; reflexivity].
  intros lg pw H self pi. unfold set_model_pars. cbn.
  change (B64.np_pow10 pw (-400)%float) with (pw (-400)%float).
  rewrite H. reflexivity.
Qed.

(** C9, as the code has it.  For every parameter vector [[lognorm, pi]],
    [set_model_pars] leaves the model with amplitude [np.power(10.0, lognorm)]
    and photon index [pi]; [model_chist], and with it every evaluation of the
    objective, calls [calculate] on that model and leaves it in the object.
    This holds for either arithmetic.  In exact arithmetic the amplitude set
    from a finite [lognorm] is [10^lognorm], which is strictly positive. *)
Theorem C9_amplitude_is_the_power_of_ten :
  (forall (F : Type) (A : Arith F) (L : Libm F) (Spectrum : Type)
          (counts : Spectrum -> list F)
          (bin_counts : Spectrum -> option (list F * list F * list F * list F))
          (calculate : Powerlaw F -> list F -> list F -> option (list F))
          (apply_resp : Spectrum -> list F -> option (list F))
          (self : PowerlawPoissonFit F Spectrum) (lognorm pi : F),
      let fitted := {| norm := f_pow10 lognorm; phoindex := pi |} in
      let self' := {| xspec := xspec self; model := fitted |} in
      set_model_pars [lognorm; pi] self = Some (tt, self')
      /\ model_chist bin_counts calculate apply_resp [lognorm; pi] self
         = match bin_counts (xspec self) with
           | Some (elo, ehi, _, _) =>
               match bin_mid elo ehi with
               | Some _ =>
                   match calculate fitted elo ehi with
                   | Some mflux =>
                       match apply_resp (xspec self) mflux with
                       | Some result => Some (result, self')
                       | None => None
                       end
                   | None => None
                   end
               | None => None
               end
           | None => None
           end
      /\ cash counts bin_counts calculate apply_resp [lognorm; pi] self
         = match model_chist bin_counts calculate apply_resp [lognorm; pi] self with
           | Some (ymodel, _) =>
               match cash_of ymodel (counts (xspec self)) with
               | Some v => Some (v, self')
               | None => None
               end
           | None => None
           end)
  /\ (forall lognorm : R,
         f_pow10 (Exact.Fin lognorm) = Exact.Fin (Rpower 10 lognorm)
         /\ (0 < Rpower 10 lognorm)%R).
Proof.
  split.
  - intros F A L Spectrum counts bin_counts calculate apply_resp self lognorm pi
           fitted self'.
    split; [reflexivity|].
    assert (Hrun := model_chist_run bin_counts calculate apply_resp self lognorm pi).
    split; [exact Hrun|].
    rewrite cash_run, Hrun.
    destruct (bin_counts (xspec self)) as [[[[elo ehi] cts] err]|]; [|reflexivity].
    destruct (bin_mid elo ehi); [|reflexivity].
    destruct (calculate _ elo ehi); [|reflexivity].
    destruct (apply_resp (xspec self) _); reflexivity.
  - intros lognorm. split; [reflexivity|apply Rpower10_pos].
Qed.

(** ** C10: a negative predicted count *)

(** C10.  If some predicted count is strictly negative, [loglikelihood]
    returns [-inf]: the bin passes [ymodel != 0.0], its logarithm is NaN, the
    NaN survives the product, the difference and the sum, and the sum fails
    [np.isfinite].  Nothing is asked of the other bins or of the observed
    counts beyond the two arrays having the same length. *)
Theorem C10_negative_prediction_gives_neg_inf
  (libm_log libm_pow10 : float -> float) (ymodel ydata : list float) (m : float) :
  let L := B64.libm libm_log libm_pow10 in
  length ymodel = length ydata ->
  In m ymodel -> (m <? 0)%float = true ->
  poisson_loglike ymodel ydata = Some neg_infinity.
Proof.
  intros L E Hin Hneg.
  apply (poisoned_bin_gives_neg_inf libm_log libm_pow10 m); try assumption.
  intros x. apply bin_term_negative. exact Hneg.
Qed.

Lemma C10_negative_prediction_witness :
  poisson_loglike (L := B64.libm (fun x => x) (fun x => x))
    [2; -3; 5]%float [1; 4; 6]%float = Some neg_infinity.
Proof.
  apply (C10_negative_prediction_gives_neg_inf (fun x => x) (fun x => x)
           [2; -3; 5]%float [1; 4; 6]%float (-3)%float).
  - reflexivity.
  - right. left. reflexivity.
  - reflexivity.
Defined.

(* ================================================================== *)
(** * Further properties of the code *)

(** ** Lists, index by index *)

Section Indexwise.
Context {T : Type}.

Lemma nth_error_zip_with (g : T -> T -> T) (a b : list T) (i : nat) :
  nth_error (zip_with g a b) i
  = match nth_error a i, nth_error b i with
    | Some x, Some y => Some (g x y)
    | _, _ => None
    end.
Proof.
  revert a b. induction i as [|i IH]; intros [|x a] [|y b]; simpl; try reflexivity.
  - destruct (nth_error a i); reflexivity.
  - apply IH.
Qed.

(** Two second operands that agree wherever [g] looks at them give the same
    elementwise result. *)
Lemma zip_with_agree_right (g : T -> T -> T) (a b b' : list T) :
  length b = length b' ->
  (forall i x y y', nth_error a i = Some x -> nth_error b i = Some y ->
                    nth_error b' i = Some y' -> g x y = g x y') ->
  zip_with g a b = zip_with g a b'.
Proof.
  revert b b'. induction a as [|x a IH]; intros [|y b] [|y' b'] E H; simpl in *;
    try discriminate; try reflexivity.
  injection E as E. f_equal.
  - apply (H 0%nat x y y'); reflexivity.
  - apply IH; [exact E|]. intros i u v v' Hu Hv Hv'. apply (H (S i) u v v'); assumption.
Qed.

Lemma zip_with_agree_left (g : T -> T -> T) (a a' b : list T) :
  length a = length a' ->
  (forall i x x' y, nth_error a i = Some x -> nth_error a' i = Some x' ->
                    nth_error b i = Some y -> g x y = g x' y) ->
  zip_with g a b = zip_with g a' b.
Proof.
  revert a' b. induction a as [|x a IH]; intros [|x' a'] [|y b] E H; simpl in *;
    try discriminate; try reflexivity.
  injection E as E. f_equal.
  - apply (H 0%nat x x' y); reflexivity.
  - apply IH; [exact E|]. intros i u u' v Hu Hu' Hv. apply (H (S i) u u' v); assumption.
Qed.

Lemma tl_removelast (l : list T) : tl (removelast l) = removelast (tl l).
Proof.
  destruct l as [|x [|y l]]; reflexivity.
Qed.

Lemma removelast_tl_length (l : list T) : length (removelast l) = length (tl l).
Proof.
  induction l as [|x [|y l] IH]; simpl in *; try reflexivity.
  rewrite IH. reflexivity.
Qed.

End Indexwise.

(** ** Which calls raise *)

Section Raising.
Context {F : Type} {A : Arith F} {L : Libm F} {Spectrum : Type}.
Variable counts : Spectrum -> list F.
Variable bin_counts : Spectrum -> option (list F * list F * list F * list F).
Variable calculate : Powerlaw F -> list F -> list F -> option (list F).
Variable apply_resp : Spectrum -> list F -> option (list F).

(** X1.  A parameter vector that does not hold exactly two numbers makes every
    method of the object raise: [lognorm, pi = pars] cannot unpack it, and all
    of [model_chist], [loglikelihood], [cash] and [mod_residuals] go through
    [set_model_pars]. *)
Theorem X1_wrong_size_parameter_vector_raises
  (pars : list F) (self : PowerlawPoissonFit F Spectrum) :
  length pars <> 2 ->
  set_model_pars pars self = None
  /\ model_chist bin_counts calculate apply_resp pars self = None
  /\ loglikelihood counts bin_counts calculate apply_resp pars self = None
  /\ cash counts bin_counts calculate apply_resp pars self = None
  /\ mod_residuals counts bin_counts calculate apply_resp pars self = None.
Proof.
  intros H.
  pose proof (model_chist_bad_pars bin_counts calculate apply_resp self pars H) as Hm.
  split; [|split; [exact Hm|split; [|split]]].
  - destruct pars as [|a [|b [|c pars]]]; simpl in *; try reflexivity. congruence.
  - rewrite loglikelihood_run, Hm. reflexivity.
  - rewrite cash_run, Hm. reflexivity.
  - rewrite mod_residuals_run, Hm. reflexivity.
Qed.

End Raising.

Lemma X1_wrong_size_witness :
  let L := B64.libm (fun x => x) (fun x => x) in
  let counts := fun s : list float => s in
  let bin_counts := fun s : list float => Some ([1%float], [2%float], s, s) in
  let calculate := fun (m : Powerlaw float) (elo ehi : list float) => Some [norm m] in
  let apply_resp := fun (s mflux : list float) => Some mflux in
  let self := {| xspec := [3%float]; model := {| norm := 1%float; phoindex := 2%float |} |} in
  set_model_pars [4; 2; 1]%float self = None
  /\ model_chist bin_counts calculate apply_resp [4; 2; 1]%float self = None
  /\ loglikelihood counts bin_counts calculate apply_resp [4; 2; 1]%float self = None
  /\ cash counts bin_counts calculate apply_resp [4; 2; 1]%float self = None
  /\ mod_residuals counts bin_counts calculate apply_resp [4; 2; 1]%float self = None.
Proof.
  intros L counts bin_counts calculate apply_resp self.
  apply (X1_wrong_size_parameter_vector_raises counts bin_counts calculate apply_resp
           [4; 2; 1]%float self).
  simpl. lia.
Defined.
(** ** The arrays the two statistics return *)

Section Arrays.
Context {F : Type} {A : Arith F} {L : Libm F}.

Lemma residuals_per_bin (mcounts cts : list F) :
  length mcounts = length cts ->
  residuals mcounts cts = Some (zip_with residual_term mcounts cts).
Proof.
  intros E. unfold residuals.
  set (p := fun e : F => f_neq e f_zero).
  assert (Ec : length cts = length (map p (map f_sqrt cts)))
    by (rewrite !length_map; auto).
  assert (Em : length mcounts = length (map p (map f_sqrt cts)))
    by (rewrite !length_map; auto).
  assert (Ee : length (map f_sqrt cts) = length (map p (map f_sqrt cts)))
    by (rewrite !length_map; auto).
  rewrite (mask_get_same_length _ _ Em), (mask_get_same_length _ _ Ec). cbn [obind].
  rewrite elementwise_same_length by (rewrite !take_mask_length by assumption; reflexivity).
  cbn [obind]. rewrite (mask_get_same_length _ _ Ee). cbn [obind].
  rewrite elementwise_same_length
    by (rewrite zip_with_length; rewrite !take_mask_length by assumption; reflexivity).
  cbn [obind]. rewrite take_mask_map, zip_div_sub_sqrt.
  unfold mask_set.
  replace (length (np_zeros (length cts)) =? length (map p (map f_sqrt cts))) with true
    by (unfold np_zeros; rewrite repeat_length, !length_map, Nat.eqb_refl; reflexivity).
  rewrite zip_with_length by (rewrite !take_mask_length by assumption; reflexivity).
  rewrite take_mask_length, Nat.eqb_refl by assumption. cbn [andb].
  rewrite map_map.
  replace (length cts) with (length (map (fun c => p (f_sqrt c)) cts))
    by (rewrite length_map; reflexivity).
  rewrite (put_take_zip (fun m c => f_div (f_sub m c) (f_sqrt c))
             (fun c => p (f_sqrt c)) mcounts cts) by assumption.
  reflexivity.
Qed.

Lemma residuals_length_error (mcounts cts : list F) :
  cts <> [] -> length mcounts <> length cts -> residuals mcounts cts = None.
Proof.
  intros N E. unfold residuals.
  rewrite mask_get_other_length; [reflexivity| |rewrite !length_map; exact E].
  destruct cts; [contradiction|discriminate].
Qed.

(** Without counts the mask is empty, and numpy does not check an empty mask
    against the model histogram. *)
Lemma residuals_empty_counts (mcounts : list F) : residuals mcounts [] = Some [].
Proof. reflexivity. Qed.

(** X2.  [loglikelihood] and [cash] raise exactly when the model histogram is
    not empty and differs in length from the observed counts (the boolean mask
    built from the model cannot index the counts).  An empty model histogram
    gives an empty mask, which numpy does not check: whatever the counts,
    nothing is selected and the sum of nothing, [0.0], goes to the
    [np.isfinite] test. *)
Theorem X2_statistic_raises_exactly_when_the_mask_misfits (ymodel ydata : list F) :
  (poisson_loglike ymodel ydata = None
   <-> ymodel <> [] /\ length ymodel <> length ydata)
  /\ (cash_of ymodel ydata = None
      <-> ymodel <> [] /\ length ymodel <> length ydata)
  /\ poisson_loglike [] ydata = Some (finite_or_neg_inf f_zero).
Proof.
  assert (H : poisson_loglike ymodel ydata = None
              <-> ymodel <> [] /\ length ymodel <> length ydata).
  { split.
    - intros H. split.
      + intros E. subst ymodel. rewrite poisson_loglike_empty_model in H. discriminate.
      + intros E. rewrite poisson_loglike_bins in H by exact E. discriminate.
    - intros [N E]. apply poisson_loglike_length_error; assumption. }
  split; [exact H|]. split; [|apply poisson_loglike_empty_model].
  unfold cash_of.
  destruct (poisson_loglike ymodel ydata) as [v|]; cbn [option_map].
  - split; [discriminate|]. intros E. apply H in E. discriminate.
  - split; [|reflexivity]. intros _. apply H. reflexivity.
Qed.

(** X3.  [mod_residuals] raises exactly when there are counts and the model
    histogram differs in length from them; whenever it returns, it returns
    one residual per bin of the counts.  Without counts it returns the empty
    array, whatever the model histogram (the empty mask is not checked). *)
Theorem X3_one_residual_per_bin (mcounts cts : list F) :
  (residuals mcounts cts = None <-> cts <> [] /\ length mcounts <> length cts)
  /\ (forall r, residuals mcounts cts = Some r -> length r = length cts)
  /\ residuals mcounts [] = Some [].
Proof.
  split; [split|split].
  - intros H. split.
    + intros E. subst cts. rewrite residuals_empty_counts in H. discriminate.
    + intros E. rewrite residuals_per_bin in H by exact E. discriminate.
  - intros [N E]. apply residuals_length_error; assumption.
  - intros r H. destruct cts as [|c cts].
    + rewrite residuals_empty_counts in H. injection H as H. subst r. reflexivity.
    + destruct (Nat.eq_dec (length mcounts) (length (c :: cts))) as [E|E].
      * rewrite residuals_per_bin in H by exact E. injection H as H. subst r.
        rewrite zip_with_length by exact E. exact E.
      * rewrite residuals_length_error in H by (try exact E; discriminate).
        discriminate.
  - apply residuals_empty_counts.
Qed.

(** X4.  The counts observed in the bins where the model is exactly zero do
    not enter the log-likelihood: two count arrays that agree in every bin with
    [ymodel != 0.0] give the same result, whatever they hold elsewhere. *)
Theorem X4_counts_in_zero_model_bins_are_ignored (ymodel ydata ydata' : list F) :
  length ymodel = length ydata -> length ydata = length ydata' ->
  (forall i m x x', nth_error ymodel i = Some m -> f_neq m f_zero = true ->
                    nth_error ydata i = Some x -> nth_error ydata' i = Some x' ->
                    x = x') ->
  poisson_loglike ymodel ydata = poisson_loglike ymodel ydata'
  /\ cash_of ymodel ydata = cash_of ymodel ydata'.
Proof.
  intros E E' H.
  assert (P : poisson_loglike ymodel ydata = poisson_loglike ymodel ydata').
  { rewrite !poisson_loglike_bins by congruence. do 3 f_equal.
    apply zip_with_agree_right; [exact E'|].
    intros i m x x' Hm Hx Hx'. unfold bin_term.
    destruct (f_neq m f_zero) eqn:N; [|reflexivity].
    rewrite (H i m x x' Hm N Hx Hx'). reflexivity. }
  split; [exact P|]. unfold cash_of. rewrite P. reflexivity.
Qed.

(** X5.  In a bin whose count has a zero square root the residual is [0.0]
    and the model is not consulted: two model histograms that agree in every
    bin with [sqrt(counts) != 0.0] have the same residuals. *)
Theorem X5_empty_bins_have_zero_residual (mcounts mcounts' cts : list F) :
  length mcounts = length cts -> length mcounts = length mcounts' ->
  (forall i m m' c, nth_error mcounts i = Some m -> nth_error mcounts' i = Some m' ->
                    nth_error cts i = Some c -> f_neq (f_sqrt c) f_zero = true ->
                    m = m') ->
  residuals mcounts cts = residuals mcounts' cts
  /\ exists r, residuals mcounts cts = Some r
       /\ forall i c, nth_error cts i = Some c -> f_neq (f_sqrt c) f_zero = false ->
                      nth_error r i = Some f_zero.
Proof.
  intros E E' H. rewrite !residuals_per_bin by congruence. split.
  - f_equal. apply zip_with_agree_left; [exact E'|].
    intros i m m' c Hm Hm' Hc. unfold residual_term.
    destruct (f_neq (f_sqrt c) f_zero) eqn:N; [|reflexivity].
    rewrite (H i m m' c Hm Hm' Hc N). reflexivity.
  - eexists. split; [reflexivity|]. intros i c Hc N.
    rewrite nth_error_zip_with, Hc.
    destruct (nth_error mcounts i) as [m|] eqn:Hm.
    + unfold residual_term. rewrite N. reflexivity.
    + apply nth_error_None in Hm.
      assert (i < length cts)%nat by (apply nth_error_Some; congruence). lia.
Qed.

(** X13.  Slicing one array of bin boundaries into [energy[:-1]] and
    [energy[1:]] gives as many low as high edges, one fewer than boundaries,
    each high edge being the next bin's low edge; so the midpoints are always
    computed, one per bin, also for an empty or a one-element array. *)
Theorem X13_sliced_grid_is_contiguous (energy : list F) :
  exists emid : list F,
    grid_of energy = Some (removelast energy, tl energy, emid)
    /\ emid = zip_with (fun l h => f_mul f_half (f_add l h))
                       (removelast energy) (tl energy)
    /\ length (removelast energy) = (length energy - 1)%nat
    /\ length (tl energy) = (length energy - 1)%nat
    /\ length emid = (length energy - 1)%nat
    /\ tl (removelast energy) = removelast (tl energy).
Proof.
  assert (Ht : length (tl energy) = (length energy - 1)%nat)
    by (destruct energy; simpl; lia).
  assert (Hr : length (removelast energy) = length (tl energy))
    by apply removelast_tl_length.
  eexists. split; [|split; [reflexivity|]].
  - unfold grid_of. rewrite bin_mid_same_length by exact Hr. reflexivity.
  - repeat split; try lia.
    + rewrite zip_with_length by exact Hr. lia.
    + apply tl_removelast.
Qed.

End Arrays.

(** ** binary64: what is not finite stays so *)

Section B64Absorbing.
Local Open Scope float_scope.

Lemma is_finite_false_spec (x : float) :
  is_finite x = false <-> ~ finite_or_zero (Prim2SF x).
Proof.
  rewrite <- is_finite_spec. destruct (is_finite x); split; intros H.
  - discriminate.
  - exfalso. apply H. reflexivity.
  - discriminate.
  - reflexivity.
Qed.

Lemma add_not_finite_l (a b : float) :
  is_finite a = false -> is_finite (a + b) = false.
Proof.
  rewrite !is_finite_false_spec, add_spec.
  destruct (Prim2SF a) as [s|s| |s m e], (Prim2SF b) as [t|t| |t n f]; simpl;
    try tauto; destruct s, t; simpl; tauto.
Qed.

Lemma add_not_finite_r (a b : float) :
  is_finite b = false -> is_finite (a + b) = false.
Proof.
  rewrite !is_finite_false_spec, add_spec.
  destruct (Prim2SF a) as [s|s| |s m e], (Prim2SF b) as [t|t| |t n f]; simpl;
    try tauto; destruct s, t; simpl; tauto.
Qed.

(** One element that is not finite is enough for [np.sum], in whatever order
    numpy adds. *)
Lemma np_sum_not_finite (l : list float) (i : nat) (x : float) :
  nth_error l i = Some x -> is_finite x = false -> is_finite (np_sum l) = false.
Proof.
  intros Hi Hx. apply (np_sum_absorbs (fun y => is_finite y = false)).
  - intros a b. apply add_not_finite_l.
  - intros a b. apply add_not_finite_r.
  - apply Exists_exists. exists x. split; [|exact Hx].
    apply (nth_error_In _ _ Hi).
Qed.

(** The sum of zeros is [0.0], also when numpy starts it from [-0.0]. *)
Lemma np_sum_zeros (l : list float) : Forall (fun t => t = 0) l -> np_sum l = 0.
Proof.
  intros H. destruct l as [|x l]; [reflexivity|].
  apply (np_sum_closed (fun t => t = 0%float)).
  - intros a b Ha Hb. subst a b. reflexivity.
  - intros a Ha. subst a. reflexivity.
  - discriminate.
  - exact H.
Qed.

(** The order of the additions shows from eight elements on: the eight
    accumulators pair [1e308 + 0.0] with [1e308 - 1e308], where adding from the
    left overflows at the third element; and an array longer than 128 elements
    is split. *)
Lemma np_sum_is_pairwise :
  np_sum [1e308; 0; 1e308; -1e308; 0; 0; 0; 0] = 1e308
  /\ fold_left PrimFloat.add [1e308; 0; 1e308; -1e308; 0; 0; 0; 0] 0 = infinity
  /\ np_sum (repeat 1 300) = 300.
Proof.
  repeat split; vm_compute; reflexivity.
Qed.

Lemma mul_nan_l x : nan * x = nan.
Proof.
  apply Prim2SF_inj. rewrite mul_spec. change (Prim2SF nan) with S754_nan.
  reflexivity.
Qed.

Lemma div_nan_r x : x / nan = nan.
Proof.
  apply Prim2SF_inj. rewrite div_spec. change (Prim2SF nan) with S754_nan.
  destruct (Prim2SF x); reflexivity.
Qed.

Lemma times_inf_minus_inf_not_finite x : is_finite (x * infinity - infinity) = false.
Proof.
  rewrite is_finite_false_spec, sub_spec, mul_spec.
  change (Prim2SF infinity) with (S754_infinity false).
  destruct (Prim2SF x) as [s|s| |s m e]; simpl; try tauto; destruct s; simpl; tauto.
Qed.

Lemma sqrt_negative x : (x <? 0) = true -> PrimFloat.sqrt x = nan.
Proof.
  rewrite ltb_spec. intros H. apply Prim2SF_inj. rewrite sqrt_spec.
  change (Prim2SF nan) with S754_nan. change (Prim2SF 0) with (S754_zero false) in H.
  destruct (Prim2SF x) as [s|s| |s m e]; try discriminate H;
    destruct s; try discriminate H; reflexivity.
Qed.

(** A binary64 number is NaN, or [+inf], or below zero, or finite and not
    below zero. *)
Lemma float_cases (x : float) :
  x = nan \/ x = infinity \/ (x <? 0) = true
  \/ (is_finite x = true /\ (0 <=? x) = true).
Proof.
  destruct (Prim2SF x) as [s|s| |s m e] eqn:E.
  - right. right. right. split.
    + apply is_finite_spec. rewrite E. exact I.
    + rewrite leb_spec, E. reflexivity.
  - destruct s.
    + right. right. left. rewrite ltb_spec, E. reflexivity.
    + right. left. apply Prim2SF_inj. rewrite E. reflexivity.
  - left. apply Prim2SF_inj. rewrite E. reflexivity.
  - destruct s.
    + right. right. left. rewrite ltb_spec, E. reflexivity.
    + right. right. right. split.
      * apply is_finite_spec. rewrite E. exact I.
      * rewrite leb_spec, E. reflexivity.
Qed.

End B64Absorbing.

Section B64Statistic.
Local Open Scope float_scope.
Variables libm_log libm_pow10 : float -> float.
Local Abbreviation L64 := (B64.libm libm_log libm_pow10).

(** A bin whose contribution is not finite sends [loglikelihood] to [-inf]. *)
Lemma not_finite_bin_gives_neg_inf (ymodel ydata : list float) (i : nat) (m x : float) :
  length ymodel = length ydata ->
  nth_error ymodel i = Some m -> nth_error ydata i = Some x ->
  is_finite (bin_term (L := L64) m x) = false ->
  poisson_loglike (L := L64) ymodel ydata = Some neg_infinity.
Proof.
  intros E Hm Hx H. rewrite poisson_loglike_bins by exact E.
  assert (N : is_finite (np_sum (zip_with (bin_term (L := L64)) ymodel ydata)) = false).
  { apply (np_sum_not_finite _ i (bin_term (L := L64) m x)); [|exact H].
    rewrite nth_error_zip_with, Hm, Hx. reflexivity. }
  unfold finite_or_neg_inf. cbn [f_isfinite B64.arith]. rewrite N. reflexivity.
Qed.

Lemma bin_term_infinity (x : float) :
  is_finite (bin_term (L := L64) infinity x) = false.
Proof.
  unfold bin_term. cbn. apply times_inf_minus_inf_not_finite.
Qed.

Lemma in_nth_pair (ymodel ydata : list float) (m : float) :
  length ymodel = length ydata -> In m ymodel ->
  exists i x, nth_error ymodel i = Some m /\ nth_error ydata i = Some x.
Proof.
  intros E H. apply In_nth_error in H as [i Hi]. exists i.
  destruct (nth_error ydata i) as [x|] eqn:Hx.
  - exists x. split; [exact Hi|reflexivity].
  - apply nth_error_None in Hx.
    assert (i < length ymodel)%nat by (apply nth_error_Some; congruence). lia.
Qed.

End B64Statistic.

(** ** binary64: edge cases of the statistic and of the residuals *)

(** X6.  A model that predicts exactly zero ([0.0] or [-0.0]) in every bin
    scores log-likelihood [0.0] and Cash statistic [-0.0], whatever counts were
    observed and however many bins there are (none included): every bin is
    masked out. *)
Theorem X6_all_zero_model_scores_zero
  (libm_log libm_pow10 : float -> float) (ymodel ydata : list float) :
  let L := B64.libm libm_log libm_pow10 in
  length ymodel = length ydata ->
  Forall (fun m => PrimFloat.eqb m 0 = true) ymodel ->
  poisson_loglike ymodel ydata = Some 0%float
  /\ cash_of ymodel ydata = Some (-0)%float.
Proof.
  intros L E H.
  assert (P : poisson_loglike ymodel ydata = Some 0%float).
  { rewrite poisson_loglike_bins by exact E.
    assert (Z : Forall (fun t => t = 0%float) (zip_with bin_term ymodel ydata)).
    { clear E. revert ydata. induction H as [|m ym Hm _ IH]; intros [|x yd]; simpl;
        constructor; [|apply IH].
      unfold bin_term. cbn [f_neq f_zero B64.arith]. rewrite Hm. reflexivity. }
    rewrite (np_sum_zeros _ Z). reflexivity. }
  split; [exact P|]. unfold cash_of. rewrite P. reflexivity.
Qed.

Lemma X6_all_zero_model_witness :
  let L := B64.libm (fun x => x) (fun x => x) in
  poisson_loglike [0; -0; 0]%float [3; 7; nan]%float = Some 0%float
  /\ cash_of [0; -0; 0]%float [3; 7; nan]%float = Some (-0)%float.
Proof.
  intros L.
  apply (X6_all_zero_model_scores_zero (fun x => x) (fun x => x)
           [0; -0; 0]%float [3; 7; nan]%float).
  - reflexivity.
  - repeat constructor.
Defined.

(** X7.  One bin is enough: if in some bin [x * log(m) - m] is not finite
    (NaN or an infinity, by its inputs or by overflow), [loglikelihood] returns
    [-inf] and [cash] returns [+inf], whatever the other bins hold. *)
Theorem X7_one_bad_bin_decides
  (libm_log libm_pow10 : float -> float) (ymodel ydata : list float)
  (i : nat) (m x : float) :
  let L := B64.libm libm_log libm_pow10 in
  length ymodel = length ydata ->
  nth_error ymodel i = Some m -> nth_error ydata i = Some x ->
  PrimFloat.eqb m 0 = false ->
  is_finite (x * B64.np_log libm_log m - m)%float = false ->
  poisson_loglike ymodel ydata = Some neg_infinity
  /\ cash_of ymodel ydata = Some infinity.
Proof.
  intros L E Hm Hx Hz H.
  assert (P : poisson_loglike ymodel ydata = Some neg_infinity).
  { apply (not_finite_bin_gives_neg_inf libm_log libm_pow10 ymodel ydata i m x);
      try assumption.
    unfold bin_term. cbn. rewrite Hz. cbn. exact H. }
  split; [exact P|]. unfold cash_of. rewrite P. reflexivity.
Qed.

Lemma X7_one_bad_bin_witness :
  let L := B64.libm (fun x => x) (fun x => x) in
  poisson_loglike [1; 1; 1]%float [2; infinity; 3]%float = Some neg_infinity
  /\ cash_of [1; 1; 1]%float [2; infinity; 3]%float = Some infinity.
Proof.
  intros L.
  apply (X7_one_bad_bin_decides (fun x => x) (fun x => x)
           [1; 1; 1]%float [2; infinity; 3]%float 1 1%float infinity);
    reflexivity.
Defined.

(** X8.  A NaN among the observed counts, in a bin where the model is not
    zero, makes [loglikelihood] return [-inf]. *)
Theorem X8_nan_count_in_a_populated_bin
  (libm_log libm_pow10 : float -> float) (ymodel ydata : list float)
  (i : nat) (m : float) :
  let L := B64.libm libm_log libm_pow10 in
  length ymodel = length ydata ->
  nth_error ymodel i = Some m -> nth_error ydata i = Some nan ->
  PrimFloat.eqb m 0 = false ->
  poisson_loglike ymodel ydata = Some neg_infinity.
Proof.
  intros L E Hm Hx Hz.
  apply (not_finite_bin_gives_neg_inf libm_log libm_pow10 ymodel ydata i m nan);
    try assumption.
  unfold bin_term. cbn. rewrite Hz. cbn. rewrite mul_nan_l, sub_nan_l. reflexivity.
Qed.

Lemma X8_nan_count_witness :
  let L := B64.libm (fun x => x) (fun x => x) in
  poisson_loglike [2; 5]%float [nan; 4]%float = Some neg_infinity.
Proof.
  intros L.
  apply (X8_nan_count_in_a_populated_bin (fun x => x) (fun x => x)
           [2; 5]%float [nan; 4]%float 0 2%float); reflexivity.
Defined.

(** X9.  An infinite predicted count makes [loglikelihood] return [-inf],
    whatever was observed in that bin: the product with the infinite logarithm
    is NaN or an infinity, and subtracting [+inf] leaves NaN or [-inf]. *)
Theorem X9_infinite_prediction_gives_neg_inf
  (libm_log libm_pow10 : float -> float) (ymodel ydata : list float) :
  let L := B64.libm libm_log libm_pow10 in
  length ymodel = length ydata ->
  In infinity ymodel ->
  poisson_loglike ymodel ydata = Some neg_infinity.
Proof.
  intros L E H.
  destruct (in_nth_pair ymodel ydata infinity E H) as (i & x & Hm & Hx).
  apply (not_finite_bin_gives_neg_inf libm_log libm_pow10 ymodel ydata i infinity x);
    try assumption.
  apply bin_term_infinity.
Qed.

Lemma X9_infinite_prediction_witness :
  let L := B64.libm (fun x => x) (fun x => x) in
  poisson_loglike [2; infinity]%float [1; 0]%float = Some neg_infinity.
Proof.
  intros L.
  apply (X9_infinite_prediction_gives_neg_inf (fun x => x) (fun x => x)
           [2; infinity]%float [1; 0]%float).
  - reflexivity.
  - right. left. reflexivity.
Defined.

(** X10.  A finite log-likelihood vouches for the model histogram: if
    [loglikelihood] returns a finite number, every predicted count is finite
    and not below zero (none is NaN, negative or infinite). *)
Theorem X10_finite_result_vouches_for_the_model
  (libm_log libm_pow10 : float -> float) (ymodel ydata : list float) (v : float) :
  let L := B64.libm libm_log libm_pow10 in
  poisson_loglike ymodel ydata = Some v -> is_finite v = true ->
  Forall (fun m => is_finite m = true /\ PrimFloat.leb 0 m = true) ymodel.
Proof.
  intros L Hv Hfin.
  destruct (list_eq_dec_nil _ ymodel) as [Nil|Nil]; [subst ymodel; constructor|].
  assert (E : length ymodel = length ydata).
  { destruct (Nat.eq_dec (length ymodel) (length ydata)) as [E|E]; [exact E|].
    rewrite poisson_loglike_length_error in Hv by (try exact E; exact Nil).
    discriminate. }
  assert (Bad : poisson_loglike ymodel ydata = Some neg_infinity -> False).
  { intros B. rewrite B in Hv. injection Hv as Hv. subst v. discriminate. }
  apply Forall_forall. intros m Hin.
  destruct (float_cases m) as [N|[I|[Neg|Ok]]]; [| | |exact Ok]; exfalso; apply Bad.
  - subst m. apply (poisoned_bin_gives_neg_inf libm_log libm_pow10 nan); try assumption.
    apply bin_term_nan.
  - subst m. destruct (in_nth_pair ymodel ydata infinity E Hin) as (i & x & Hm & Hx).
    apply (not_finite_bin_gives_neg_inf libm_log libm_pow10 ymodel ydata i infinity x);
      try assumption.
    apply bin_term_infinity.
  - apply (poisoned_bin_gives_neg_inf libm_log libm_pow10 m); try assumption.
    intros x. apply bin_term_negative. exact Neg.
Qed.

Lemma X10_finite_result_witness :
  Forall (fun m => is_finite m = true /\ PrimFloat.leb 0 m = true) [1; 0]%float.
Proof.
  apply (X10_finite_result_vouches_for_the_model (fun x => x) (fun x => x)
           [1; 0]%float [3; 5]%float (-1)%float); reflexivity.
Defined.

(** X11.  A negative count gives a NaN residual in its bin: its square root is
    NaN, which passes [cts_err != 0.0] and is divided by. *)
Theorem X11_negative_count_gives_nan_residual
  (mcounts cts : list float) (i : nat) (c : float) :
  length mcounts = length cts ->
  nth_error cts i = Some c -> PrimFloat.ltb c 0 = true ->
  exists r, residuals mcounts cts = Some r /\ nth_error r i = Some nan.
Proof.
  intros E Hc Hneg. rewrite residuals_per_bin by exact E.
  eexists. split; [reflexivity|].
  rewrite nth_error_zip_with, Hc.
  destruct (nth_error mcounts i) as [m|] eqn:Hm.
  - unfold residual_term. cbn. rewrite (sqrt_negative c Hneg). cbn.
    rewrite div_nan_r. reflexivity.
  - apply nth_error_None in Hm.
    assert (i < length cts)%nat by (apply nth_error_Some; congruence). lia.
Qed.

Lemma X11_negative_count_witness :
  exists r, residuals [1; 4]%float [4; -2]%float = Some r
            /\ nth_error r 1 = Some nan.
Proof.
  apply (X11_negative_count_gives_nan_residual [1; 4]%float [4; -2]%float 1 (-2)%float);
    reflexivity.
Defined.


(** ** binary64: the grid cut from increasing boundaries *)

Section B64Grid.
Local Open Scope float_scope.

Lemma ascending_tail (rel : float -> float -> bool) (a : float) (l : list float) :
  ascending rel (a :: l) -> ascending rel l.
Proof.
  intros H i x y Hx Hy. apply (H (S i) x y); assumption.
Qed.

Lemma ascending_head (rel : float -> float -> bool) (a b : float) (l : list float) :
  ascending rel (a :: b :: l) -> rel a b = true.
Proof.
  intros H. apply (H 0%nat a b); reflexivity.
Qed.

Lemma ascending_cons (rel : float -> float -> bool) (a b : float) (l : list float) :
  rel a b = true -> ascending rel (b :: l) -> ascending rel (a :: b :: l).
Proof.
  intros Hab H [|i] x y Hx Hy; simpl in *.
  - injection Hx as Hx. injection Hy as Hy. subst. exact Hab.
  - apply (H i x y); assumption.
Qed.

Lemma removelast_cons2 (T : Type) (a b : T) (l : list T) :
  removelast (a :: b :: l) = a :: removelast (b :: l).
Proof. reflexivity. Qed.

(** Increasing finite boundaries whose neighbours do not sum to an infinity
    cut bins that satisfy the conditions of [midpoints_binary64]. *)
Lemma increasing_edges (energy : list float) :
  Forall (fun e => is_finite e = true) energy ->
  ascending PrimFloat.ltb energy ->
  ascending (fun a b => is_finite (a + b)) energy ->
  Forall2 (fun l h => is_finite l = true /\ is_finite h = true
                      /\ PrimFloat.ltb l h = true
                      /\ is_finite (l + h) = true)
          (removelast energy) (tl energy).
Proof.
  induction energy as [|a [|b l] IH]; intros F H S.
  - constructor.
  - constructor.
  - rewrite removelast_cons2. simpl tl.
    inversion F as [|? ? Fa F']; subst. inversion F' as [|? ? Fb _]; subst.
    constructor.
    + repeat split; try assumption.
      * exact (ascending_head _ a b l H).
      * exact (ascending_head _ a b l S).
    + apply IH; [exact F'|exact (ascending_tail _ a _ H)|exact (ascending_tail _ a _ S)].
Qed.

Lemma increasing_midpoints (energy : list float) :
  Forall (fun e => is_finite e = true) energy ->
  ascending PrimFloat.ltb energy ->
  ascending (fun a b => is_finite (a + b)) energy ->
  ascending PrimFloat.leb
            (zip_with (fun l h => 0.5 * (l + h)) (removelast energy) (tl energy)).
Proof.
  induction energy as [|a [|b [|c l]] IH]; intros F H S.
  - intros [|i] x y Hx Hy; discriminate.
  - intros [|i] x y Hx Hy; discriminate.
  - intros [|[|i]] x y Hx Hy; simpl in *; discriminate.
  - inversion F as [|? ? Fa F']; subst. inversion F' as [|? ? Fb F'']; subst.
    inversion F'' as [|? ? Fc _]; subst.
    pose proof (ascending_tail _ a _ H) as Ht.
    pose proof (ascending_tail _ a _ S) as St.
    specialize (IH F' Ht St).
    destruct (midpoint_off_one_edge a b Fa Fb (ascending_head _ a b _ H)
                (ascending_head _ a b _ S)) as (F1 & _ & U1 & _).
    destruct (midpoint_off_one_edge b c Fb Fc (ascending_head _ b c _ Ht)
                (ascending_head _ b c _ St)) as (F2 & L2 & _ & _).
    rewrite removelast_cons2. simpl tl.
    rewrite removelast_cons2 in IH |- *. simpl tl in IH.
    simpl zip_with in IH |- *.
    apply ascending_cons; [|exact IH].
    exact (leb_transitive _ b _ F1 Fb F2 U1 L2).
Qed.

(** X15.  In binary64, finite boundaries that increase strictly and whose
    neighbours do not sum to an infinity give a grid, under the slicing
    [energy[:-1]], [energy[1:]], [0.5 * (elo + ehi)], in which every midpoint
    is finite and lies in its bin, edges included, and the midpoints never
    decrease.  (They need not increase strictly: two neighbouring midpoints
    can be rounded onto the edge they share.) *)
Theorem X15_increasing_boundaries_give_a_valid_grid (energy : list float) :
  Forall (fun e => is_finite e = true) energy ->
  ascending PrimFloat.ltb energy ->
  ascending (fun a b => is_finite (a + b)) energy ->
  exists mids : list float,
    grid_of energy = Some (removelast energy, tl energy, mids)
    /\ Forall (fun m => is_finite m = true) mids
    /\ Forall2 (fun l m => PrimFloat.leb l m = true) (removelast energy) mids
    /\ Forall2 (fun m h => PrimFloat.leb m h = true) mids (tl energy)
    /\ ascending PrimFloat.leb mids.
Proof.
  intros F H S.
  pose proof (increasing_edges energy F H S) as V.
  destruct (midpoints_binary64 _ _ V) as (M1 & M2 & M3 & _).
  exists (zip_with (fun l h => 0.5 * (l + h)) (removelast energy) (tl energy)).
  split; [|split; [exact M1|split; [exact M2|split; [exact M3|]]]].
  - unfold grid_of.
    rewrite (bin_mid_same_length float B64.arith) by apply removelast_tl_length.
    reflexivity.
  - apply increasing_midpoints; assumption.
Qed.

Lemma X15_increasing_boundaries_witness :
  exists mids : list float,
    grid_of [1.0000000000000002; 1.0000000000000004; 1.0000000000000007]
    = Some (removelast [1.0000000000000002; 1.0000000000000004; 1.0000000000000007],
            tl [1.0000000000000002; 1.0000000000000004; 1.0000000000000007], mids)
    /\ Forall (fun m => is_finite m = true) mids
    /\ Forall2 (fun l m => PrimFloat.leb l m = true)
               (removelast [1.0000000000000002; 1.0000000000000004; 1.0000000000000007])
               mids
    /\ Forall2 (fun m h => PrimFloat.leb m h = true) mids
               (tl [1.0000000000000002; 1.0000000000000004; 1.0000000000000007])
    /\ ascending PrimFloat.leb mids.
Proof.
  apply (X15_increasing_boundaries_give_a_valid_grid
           [1.0000000000000002; 1.0000000000000004; 1.0000000000000007]).
  - repeat constructor.
  - intros [|[|[|i]]] a b Ha Hb; simpl in *; try discriminate;
      injection Ha as Ha; injection Hb as Hb; subst; reflexivity.
  - intros [|[|[|i]]] a b Ha Hb; simpl in *; try discriminate;
      injection Ha as Ha; injection Hb as Hb; subst; reflexivity.
Defined.

End B64Grid.

(** ** The methods composed *)

Section Composed.
Context {F : Type} {A : Arith F} {L : Libm F} {Spectrum : Type}.
Variable counts : Spectrum -> list F.
Variable bin_counts : Spectrum -> option (list F * list F * list F * list F).
Variable calculate : Powerlaw F -> list F -> list F -> option (list F).
Variable apply_resp : Spectrum -> list F -> option (list F).

(** X14.  On a spectrum that has counts: when [mod_residuals] returns on the
    vector [[lognorm, pi]], the object it leaves behind holds the spectrum it
    had and the model set from that vector, whatever the model held before; it
    returns one residual per count; and [loglikelihood] and [cash] return on
    the same vector too, leaving the same object.  (Without counts
    [mod_residuals] returns the empty array for any model histogram, while
    [loglikelihood] raises on one that is not empty.) *)
Theorem X14_residuals_leave_the_model_of_their_vector
  (lognorm pi : F) (self self' : PowerlawPoissonFit F Spectrum) (r : list F) :
  counts (xspec self) <> [] ->
  mod_residuals counts bin_counts calculate apply_resp [lognorm; pi] self
  = Some (r, self') ->
  self' = tuned self lognorm pi
  /\ length r = length (counts (xspec self))
  /\ exists v,
      loglikelihood counts bin_counts calculate apply_resp [lognorm; pi] self
      = Some (v, self')
      /\ cash counts bin_counts calculate apply_resp [lognorm; pi] self
         = Some (cash_value v, self').
Proof.
  intros Hc.
  rewrite mod_residuals_run, loglikelihood_run, cash_run.
  destruct (model_chist bin_counts calculate apply_resp [lognorm; pi] self)
    as [[y s]|] eqn:E; [|discriminate].
  assert (Hs : s = tuned self lognorm pi).
  { revert E. rewrite model_chist_run.
    destruct (bin_counts (xspec self)) as [[[[elo ehi] cts] err]|]; [|discriminate].
    destruct (bin_mid elo ehi); [|discriminate].
    destruct (calculate _ elo ehi); [|discriminate].
    destruct (apply_resp (xspec self) _); [|discriminate].
    intros H. injection H as _ H. symmetry. exact H. }
  assert (Hc' : counts (xspec s) <> []) by (rewrite Hs; exact Hc).
  destruct (Nat.eq_dec (length y) (length (counts (xspec s)))) as [El|Nl].
  - rewrite residuals_per_bin by exact El.
    intros H. injection H as Hr H. subst self'.
    split; [exact Hs|]. split.
    { rewrite <- Hr, zip_with_length by exact El.
      rewrite El, Hs. reflexivity. }
    unfold cash_of. rewrite poisson_loglike_bins by exact El.
    eexists. split; reflexivity.
  - rewrite residuals_length_error by assumption. discriminate.
Qed.

End Composed.

Lemma X14_residuals_witness :
  let L := B64.libm (fun x => x) (fun x => x) in
  let counts := fun s : list float => s in
  let bin_counts := fun s : list float => Some ([1%float], [2%float], s, s) in
  let calculate := fun (m : Powerlaw float) (elo ehi : list float) => Some [norm m] in
  let apply_resp := fun (s mflux : list float) => Some mflux in
  let self := {| xspec := [4%float]; model := {| norm := 1%float; phoindex := 2%float |} |} in
  let self' := {| xspec := [4%float]; model := {| norm := 6%float; phoindex := 3%float |} |} in
  self' = tuned self 6%float 3%float
  /\ length [1%float] = length (counts (xspec self))
  /\ exists v,
      loglikelihood counts bin_counts calculate apply_resp [6; 3]%float self
      = Some (v, self')
      /\ cash counts bin_counts calculate apply_resp [6; 3]%float self
         = Some (cash_value v, self').
Proof.
  intros L counts bin_counts calculate apply_resp self self'.
  apply (X14_residuals_leave_the_model_of_their_vector counts bin_counts calculate
           apply_resp 6%float 3%float self self' [1%float]).
  - discriminate.
  - reflexivity.
Defined.

Lemma X4_zero_model_bins_witness :
  let L := B64.libm (fun x => x) (fun x => x) in
  poisson_loglike [0; 2]%float [5; 3]%float = poisson_loglike [0; 2]%float [7; 3]%float
  /\ cash_of [0; 2]%float [5; 3]%float = cash_of [0; 2]%float [7; 3]%float.
Proof.
  intros L.
  apply (X4_counts_in_zero_model_bins_are_ignored [0; 2]%float [5; 3]%float [7; 3]%float).
  - reflexivity.
  - reflexivity.
  - intros [|[|i]] m x x' Hm N Hx Hx'.
    + injection Hm as Hm. subst m. vm_compute in N. discriminate.
    + simpl in Hx, Hx'. congruence.
    + destruct i; discriminate.
Defined.

Lemma X5_empty_bins_witness :
  let L := B64.libm (fun x => x) (fun x => x) in
  residuals [1; 2]%float [0; 4]%float = residuals [9; 2]%float [0; 4]%float
  /\ exists r, residuals [1; 2]%float [0; 4]%float = Some r
       /\ forall i c, nth_error [0; 4]%float i = Some c ->
                      f_neq (f_sqrt c) f_zero = false ->
                      nth_error r i = Some f_zero.
Proof.
  intros L.
  apply (X5_empty_bins_have_zero_residual [1; 2]%float [9; 2]%float [0; 4]%float).
  - reflexivity.
  - reflexivity.
  - intros [|[|i]] m m' c Hm Hm' Hc N.
    + injection Hc as Hc. subst c. vm_compute in N. discriminate.
    + simpl in Hm, Hm'. congruence.
    + destruct i; discriminate.
Defined.
